(** * The call component (src/components/Call.tsx)

    A shallow embedding of the [Call] React component: its state
    variables and refs, the browser objects it reaches through them, and
    each of its handlers as a function from the component state to an
    outcome, the new state and the ordered list of calls made to the
    browser, the router and the backend.

    All handlers run to completion on one thread; an [await] splits an
    async function into the part before it and the continuation that runs
    when the promise settles, and whether a promise resolves or rejects is
    the environment's choice.  A click runs the handler of the latest
    render.  Of the browser objects the model keeps what the component
    depends on: the [enabled] and [readyState] fields of the tracks, and
    whether the data channel is open, since [RTCDataChannel.send] raises
    [InvalidStateError] on a channel that is not. *)

From stdpp Require Import base option list strings.

Open Scope string_scope.
Open Scope list_scope.

(** ** Values crossing the component's boundary *)

Module Js.

(** The JSON-representable values the component serialises or parses. *)
#[local] Unset Elimination Schemes.
Inductive Json : Type :=
| JNull
| JBool (b : bool)
| JNum (n : nat)
| JStr (s : string)
| JArr (items : list Json)
| JObj (fields : list (string * Json)).
#[local] Set Elimination Schemes.

(** A text handed to [JSON.parse] or produced by [JSON.stringify]: the
    serialisation of a value, or a text that is no JSON at all. *)
Inductive JsonText : Type :=
| JSON_stringify (v : Json)
| Malformed (raw : string).

Definition JSON_parse (t : JsonText) : option Json :=
  match t with
  | JSON_stringify v => Some v
  | Malformed _ => None
  end.

(** [obj[k]] on the object that [JSON.parse] builds from the members of an
    object text, read in their order: a member whose key occurred before
    overwrites the earlier one, so of a repeated key the last value is the
    one found; a key that does not occur gives [undefined]. *)
Fixpoint assoc (k : string) (fields : list (string * Json)) : option Json :=
  match fields with
  | [] => None
  | (k', v) :: rest =>
      match assoc k rest with
      | Some later => Some later
      | None => if String.eqb k' k then Some v else None
      end
  end.

(** [v === s] for a string literal [s]. *)
Definition strict_eq_str (v : option Json) (s : string) : bool :=
  match v with
  | Some (JStr t) => String.eqb t s
  | _ => false
  end.

End Js.
Import Js.

(** ** Browser objects *)

Inductive TrackKind : Type := Audio | Video.

Inductive TrackState : Type := Live | Ended.

Record MediaStreamTrack : Type := mkTrack {
  kind : TrackKind;
  enabled : bool;
  readyState : TrackState
}.

(** A [MediaStream] is the list of its tracks. *)
Definition MediaStream : Type := list MediaStreamTrack.

Definition is_audio (t : MediaStreamTrack) : bool :=
  match kind t with Audio => true | Video => false end.

Definition is_video (t : MediaStreamTrack) : bool :=
  match kind t with Video => true | Audio => false end.

(** [track.enabled = !track.enabled] *)
Definition flip_enabled (t : MediaStreamTrack) : MediaStreamTrack :=
  mkTrack (kind t) (negb (enabled t)) (readyState t).

(** [track.stop()] *)
Definition stop (t : MediaStreamTrack) : MediaStreamTrack :=
  mkTrack (kind t) (enabled t) Ended.

(** [stream.getAudioTracks().forEach(f)], [stream.getVideoTracks().forEach(f)]
    and [stream.getTracks().forEach(f)] for an [f] that updates the track it
    is given. *)
Definition forEach_where (p : MediaStreamTrack -> bool)
    (f : MediaStreamTrack -> MediaStreamTrack) (st : MediaStream) : MediaStream :=
  map (fun t => if p t then f t else t) st.

(** A [<video>] element; [srcObject] is the position of the stream in the
    store of stream objects (for the remote element, the number of the
    remote stream). *)
Record HTMLVideoElement : Type := mkVideo {
  srcObject : option nat
}.

Record Profile : Type := mkProfile {
  id : string;
  username : string;
  avatar_url : string
}.

Record Presence : Type := mkPresence {
  user_id : string
}.

(** A row of [call_signals] as the component inserts it. *)
Record SignalRow : Type := mkSignal {
  from_user : option string;
  to_user : string;
  type : string;
  signal : JsonText
}.

(** ** Calls made by the component, in the order they are made *)

Inductive Effect : Type :=
| ProfilesSelect (eq_id : string)
| ChannelSubscribe (name : string)
| ChannelUnsubscribe (name : string)
| GetUserMedia (audio video : bool)
| NewPeerConnection (pc : nat) (iceServers : list string)
| PcAddTrack (pc stream track : nat)
| PcCreateDataChannel (pc : nat) (label : string)
| PcCreateOffer (pc : nat)
| PcSetLocalDescription (pc : nat) (desc : Json)
| PcClose (pc : nat)
| DcSend (dc : nat) (data : JsonText)
| SignalsInsert (row : SignalRow)
| Navigate (path : string)
| ConsoleError (msg : string)
| Uncaught (name : string)
(* the rest of the RTCPeerConnection negotiation interface *)
| PcSetRemoteDescription (pc : nat) (desc : Json)
| PcCreateAnswer (pc : nat)
| PcAddIceCandidate (pc : nat) (candidate : Json).

(** ** Component state *)

(** What the route and the auth store give the component: [receiverId] from
    the route [/call/:id], [user?.id], and the [type] search parameter
    ([searchParams.get('type') || 'video']). *)
Record Props : Type := mkProps {
  receiverId : string;
  userId : option string;
  callType : string
}.

Record State : Type := mkState {
  mounted : bool;
  receiver : option Profile;
  isMuted : bool;
  isVideoEnabled : bool;
  isCallActive : bool;
  isConnecting : bool;
  permissionError : option string;
  localVideoRef : option HTMLVideoElement;
  remoteVideoRef : option HTMLVideoElement;
  peerConnectionRef : option nat;
  channelRef : option nat;
  (* whether the readyState of the channel in channelRef is open *)
  channelOpen : bool;
  (* the MediaStream objects obtained so far, and the number of peer
     connections constructed so far *)
  streams : list MediaStream;
  connections : nat
}.

Definition with_mounted (v : bool) (s : State) : State :=
  mkState v (receiver s) (isMuted s) (isVideoEnabled s) (isCallActive s)
    (isConnecting s) (permissionError s) (localVideoRef s) (remoteVideoRef s)
    (peerConnectionRef s) (channelRef s) (channelOpen s) (streams s)
    (connections s).

Definition with_receiver (v : option Profile) (s : State) : State :=
  mkState (mounted s) v (isMuted s) (isVideoEnabled s) (isCallActive s)
    (isConnecting s) (permissionError s) (localVideoRef s) (remoteVideoRef s)
    (peerConnectionRef s) (channelRef s) (channelOpen s) (streams s)
    (connections s).

Definition with_isMuted (v : bool) (s : State) : State :=
  mkState (mounted s) (receiver s) v (isVideoEnabled s) (isCallActive s)
    (isConnecting s) (permissionError s) (localVideoRef s) (remoteVideoRef s)
    (peerConnectionRef s) (channelRef s) (channelOpen s) (streams s)
    (connections s).

Definition with_isVideoEnabled (v : bool) (s : State) : State :=
  mkState (mounted s) (receiver s) (isMuted s) v (isCallActive s)
    (isConnecting s) (permissionError s) (localVideoRef s) (remoteVideoRef s)
    (peerConnectionRef s) (channelRef s) (channelOpen s) (streams s)
    (connections s).

Definition with_isCallActive (v : bool) (s : State) : State :=
  mkState (mounted s) (receiver s) (isMuted s) (isVideoEnabled s) v
    (isConnecting s) (permissionError s) (localVideoRef s) (remoteVideoRef s)
    (peerConnectionRef s) (channelRef s) (channelOpen s) (streams s)
    (connections s).

Definition with_isConnecting (v : bool) (s : State) : State :=
  mkState (mounted s) (receiver s) (isMuted s) (isVideoEnabled s)
    (isCallActive s) v (permissionError s) (localVideoRef s)
    (remoteVideoRef s) (peerConnectionRef s) (channelRef s) (channelOpen s)
    (streams s) (connections s).

Definition with_permissionError (v : option string) (s : State) : State :=
  mkState (mounted s) (receiver s) (isMuted s) (isVideoEnabled s)
    (isCallActive s) (isConnecting s) v (localVideoRef s) (remoteVideoRef s)
    (peerConnectionRef s) (channelRef s) (channelOpen s) (streams s)
    (connections s).

Definition with_peerConnectionRef (v : option nat) (s : State) : State :=
  mkState (mounted s) (receiver s) (isMuted s) (isVideoEnabled s)
    (isCallActive s) (isConnecting s) (permissionError s) (localVideoRef s)
    (remoteVideoRef s) v (channelRef s) (channelOpen s) (streams s)
    (connections s).

Definition with_channelRef (v : option nat) (s : State) : State :=
  mkState (mounted s) (receiver s) (isMuted s) (isVideoEnabled s)
    (isCallActive s) (isConnecting s) (permissionError s) (localVideoRef s)
    (remoteVideoRef s) (peerConnectionRef s) v (channelOpen s) (streams s)
    (connections s).

Definition with_channelOpen (v : bool) (s : State) : State :=
  mkState (mounted s) (receiver s) (isMuted s) (isVideoEnabled s)
    (isCallActive s) (isConnecting s) (permissionError s) (localVideoRef s)
    (remoteVideoRef s) (peerConnectionRef s) (channelRef s) v (streams s)
    (connections s).

Definition with_streams (v : list MediaStream) (s : State) : State :=
  mkState (mounted s) (receiver s) (isMuted s) (isVideoEnabled s)
    (isCallActive s) (isConnecting s) (permissionError s) (localVideoRef s)
    (remoteVideoRef s) (peerConnectionRef s) (channelRef s) (channelOpen s) v
    (connections s).

Definition with_connections (v : nat) (s : State) : State :=
  mkState (mounted s) (receiver s) (isMuted s) (isVideoEnabled s)
    (isCallActive s) (isConnecting s) (permissionError s) (localVideoRef s)
    (remoteVideoRef s) (peerConnectionRef s) (channelRef s) (channelOpen s)
    (streams s) v.

Definition with_videoRefs (l r : option HTMLVideoElement) (s : State) : State :=
  mkState (mounted s) (receiver s) (isMuted s) (isVideoEnabled s)
    (isCallActive s) (isConnecting s) (permissionError s) l r
    (peerConnectionRef s) (channelRef s) (channelOpen s) (streams s)
    (connections s).

(** ** Handlers as state transformers that log their calls *)

(** How a piece of code ends: normally, or by an exception of a given
    name. *)
Inductive Outcome (A : Type) : Type :=
| Done (a : A)
| Thrown (name : string).
Arguments Done {A} a.
Arguments Thrown {A} name.

Definition M (A : Type) : Type := State -> Outcome A * State * list Effect.

Definition result {A} (r : Outcome A * State * list Effect) : Outcome A := fst (fst r).
Definition state_of {A} (r : Outcome A * State * list Effect) : State := snd (fst r).
Definition calls {A} (r : Outcome A * State * list Effect) : list Effect := snd r.

#[global] Instance M_ret : MRet M := fun A a s => (Done a, s, []).

(** Sequencing; an exception skips what follows. *)
#[global] Instance M_bind : MBind M := fun A B k m s =>
  match m s with
  | (Done a, s1, calls1) =>
      let '(b, s2, calls2) := k a s1 in (b, s2, calls1 ++ calls2)
  | (Thrown name, s1, calls1) => (Thrown name, s1, calls1)
  end.

Definition throw {A} (name : string) : M A := fun s => (Thrown name, s, []).

(** [try { body } catch (error) { handle(error.name) }] *)
Definition try_catch {A} (body : M A) (handle : string -> M A) : M A := fun s =>
  match body s with
  | (Thrown name, s1, calls1) =>
      let '(b, s2, calls2) := handle name s1 in (b, s2, calls1 ++ calls2)
  | r => r
  end.

Definition emit (e : Effect) : M unit := fun s => (Done tt, s, [e]).
Definition read {A} (f : State -> A) : M A := fun s => (Done (f s), s, []).
Definition update (f : State -> State) : M unit := fun s => (Done tt, f s, []).
Definition skip : M unit := mret tt.

(** A state setter of [useState]: it has no effect once the component is
    unmounted. *)
Definition setState (f : State -> State) : M unit :=
  update (fun s => if mounted s then f s else s).

Fixpoint forEach {A} (l : list A) (f : A -> M unit) : M unit :=
  match l with
  | [] => skip
  | x :: rest => f x ;; forEach rest f
  end.

(** [pc.close()]: the call, and the channel of the connection is open no
    more. *)
Definition closeConnection (pc : nat) : M unit :=
  emit (PcClose pc) ;;
  update (with_channelOpen false).

(** [channel.send(data)]: the call when the channel is open, an exception
    when it is not. *)
Definition send (dc : nat) (data : JsonText) : M unit := fun s =>
  if channelOpen s then emit (DcSend dc data) s else throw "InvalidStateError" s.

(** ** The component *)

Section Call.

Context (props : Props).

(** [callType === 'video'] *)
Definition wantsVideo : bool := String.eqb (callType props) "video".

(** [`call:${receiverId}`] *)
Definition channelName : string := "call:" +:+ receiverId props.

(** The [useState] and [useRef] initial values, before the first render. *)
Definition initialState : State :=
  mkState true None false true false true None None None None None false [] 0.

(** What a render leaves in the two video refs.  The permission screen
    (when [permissionError] is set) contains no [<video>]; otherwise the
    remote element is always rendered and the local one only when
    [callType === 'video'].  An element that stays rendered is kept with
    its [srcObject]; one that appears is new. *)
Definition render (s : State) : State :=
  if mounted s then
    match permissionError s with
    | Some _ => with_videoRefs None None s
    | None =>
        with_videoRefs
          (if wantsVideo then Some (default (mkVideo None) (localVideoRef s)) else None)
          (Some (default (mkVideo None) (remoteVideoRef s)))
          s
    end
  else with_videoRefs None None s.

(** *** [initializeCall] *)

(** Up to [await navigator.mediaDevices.getUserMedia(constraints)]. *)
Definition initializeCall : M unit :=
  setState (with_permissionError None) ;;
  emit (GetUserMedia true wantsVideo).

Definition iceServers : list string :=
  ["stun:stun.l.google.com:19302"; "stun:stun1.l.google.com:19302"].

(** The rest of the [try] block, once [getUserMedia] has resolved. *)
Definition initializeCall_resolved (stream : MediaStream) : M unit :=
  sid ← read (fun s => length (streams s));
  update (fun s => with_streams (streams s ++ [stream]) s) ;;
  update (fun s =>
    match localVideoRef s with
    | Some _ => with_videoRefs (Some (mkVideo (Some sid))) (remoteVideoRef s) s
    | None => s
    end) ;;
  pc ← read connections;
  update (with_connections (S pc)) ;;
  emit (NewPeerConnection pc iceServers) ;;
  forEach (seq 0 (length stream)) (fun i => emit (PcAddTrack pc sid i)) ;;
  emit (PcCreateDataChannel pc "call-channel") ;;
  update (with_channelRef (Some pc)) ;;
  update (with_channelOpen false) ;;
  update (with_peerConnectionRef (Some pc)).

(** The message chosen in the [catch] block from [error.name]. *)
Definition errorMessage (name : string) : string :=
  if String.eqb name "NotAllowedError" then
    "Please allow access to your camera and microphone to make calls."
  else if String.eqb name "NotFoundError" then
    "No camera or microphone found. Please check your device connections."
  else if String.eqb name "NotReadableError" then
    "Your camera or microphone is already in use by another application."
  else "Could not access camera or microphone.".

(** The [catch] block. *)
Definition initializeCall_rejected (name : string) : M unit :=
  emit (ConsoleError "Error accessing media devices:") ;;
  setState (with_permissionError (Some (errorMessage name))).

(** [peerConnection.ontrack] *)
Definition ontrack (eventStreams : list nat) : M unit :=
  r ← read remoteVideoRef;
  match r with
  | Some _ =>
      update (fun s => with_videoRefs (localVideoRef s) (Some (mkVideo (head eventStreams))) s) ;;
      setState (with_isCallActive true) ;;
      setState (with_isConnecting false)
  | None => skip
  end.

(** [peerConnection.onicecandidate] *)
Definition onicecandidate (candidate : option Json) : M unit :=
  match candidate with
  | Some c =>
      emit (SignalsInsert
        (mkSignal (userId props) (receiverId props) "ice-candidate" (JSON_stringify c)))
  | None => skip
  end.

(** *** [createOffer] *)

(** Up to [await peerConnectionRef.current.createOffer()]. *)
Definition createOffer : M unit :=
  pc ← read peerConnectionRef;
  match pc with
  | None => skip
  | Some pc => emit (PcCreateOffer pc)
  end.

(** The [catch] block of [createOffer]. *)
Definition createOffer_rejected : M unit :=
  emit (ConsoleError "Error creating offer:").

(** From the offer to [await ...setLocalDescription(offer)]; the ref is
    read again here, inside the [try]. *)
Definition createOffer_created (offer : Json) : M unit :=
  try_catch
    (pc ← read peerConnectionRef;
     match pc with
     | None => throw "TypeError"
     | Some pc => emit (PcSetLocalDescription pc offer)
     end)
    (fun _ => createOffer_rejected).

(** From there to [await supabase.from('call_signals').insert(...)]. *)
Definition createOffer_described (offer : Json) : M unit :=
  emit (SignalsInsert
    (mkSignal (userId props) (receiverId props) "offer" (JSON_stringify offer))).

(** *** The controls *)

(** [stream.getAudioTracks().forEach(...)] and the like on the stream at
    position [sid] of the store. *)
Definition onStream (sid : nat) (f : MediaStream -> MediaStream) : M unit :=
  update (fun s => with_streams (alter f sid (streams s)) s).

(** [localVideoRef.current?.srcObject] *)
Definition localStream (s : State) : option nat :=
  v ← localVideoRef s; srcObject v.

Definition toggleMute : M unit :=
  stream ← read localStream;
  match stream with
  | Some sid =>
      onStream sid (forEach_where is_audio flip_enabled) ;;
      muted ← read isMuted;
      setState (with_isMuted (negb muted))
  | None => skip
  end.

Definition toggleVideo : M unit :=
  stream ← read localStream;
  match stream with
  | Some sid =>
      onStream sid (forEach_where is_video flip_enabled) ;;
      on ← read isVideoEnabled;
      setState (with_isVideoEnabled (negb on))
  | None => skip
  end.

Definition endCallMessage : JsonText :=
  JSON_stringify (JObj [("type", JStr "end-call")]).

Definition endCall : M unit :=
  dc ← read channelRef;
  match dc with
  | Some dc => send dc endCallMessage
  | None => skip
  end ;;
  stream ← read localStream;
  match stream with
  | Some sid => onStream sid (forEach_where (fun _ => true) stop)
  | None => skip
  end ;;
  pc ← read peerConnectionRef;
  match pc with
  | Some pc => closeConnection pc
  | None => skip
  end ;;
  setState (with_isCallActive false) ;;
  emit (Navigate "/home").

(** [dataChannel.onmessage]: [JSON.parse] throws on a text that is no
    JSON, and [message.type] throws on [null]; on any other value that is
    no object the property is [undefined]. *)
Definition onmessage (data : JsonText) : M unit :=
  match JSON_parse data with
  | None => throw "SyntaxError"
  | Some JNull => throw "TypeError"
  | Some (JObj fields) =>
      if strict_eq_str (assoc "type" fields) "end-call" then endCall else skip
  | Some _ => skip
  end.

(** *** The effect of [useEffect] and its subscriptions *)

(** [fetchReceiver], up to the [await]. *)
Definition fetchReceiver : M unit :=
  emit (ProfilesSelect (receiverId props)).

(** [setReceiver(data)] *)
Definition fetchReceiver_resolved (data : option Profile) : M unit :=
  setState (with_receiver data).

(** [newPresences.some(p => p.user_id === receiverId)] *)
Definition namesReceiver (newPresences : list Presence) : bool :=
  existsb (fun p => String.eqb (user_id p) (receiverId props)) newPresences.

(** The [join] listener. *)
Definition onPresenceJoin (newPresences : list Presence) : M unit :=
  if namesReceiver newPresences then
    setState (with_isConnecting false) ;;
    createOffer
  else skip.

(** The [leave] listener. *)
Definition onPresenceLeave : M unit := endCall.

(** The body of the effect. *)
Definition mountEffect : M unit :=
  fetchReceiver ;;
  initializeCall ;;
  emit (ChannelSubscribe channelName).

(** The function the effect returns. *)
Definition cleanup : M unit :=
  emit (ChannelUnsubscribe channelName) ;;
  pc ← read peerConnectionRef;
  match pc with
  | Some pc => closeConnection pc
  | None => skip
  end.

(** *** Everything that can reach the component *)

Inductive Event : Type :=
(* promises settling *)
| ProfileFetched (data : option Profile)
| MediaResolved (stream : MediaStream)
| MediaRejected (name : string)
| OfferCreated (offer : Json)
| LocalDescriptionSet (offer : Json)
| OfferFailed
(* presence *)
| PresenceJoin (newPresences : list Presence)
| PresenceLeave
(* peer connection and data channel *)
| TrackEvent (eventStreams : list nat)
| IceCandidateEvent (candidate : option Json)
| ChannelMessage (data : JsonText)
(* the data channel opens or closes *)
| ChannelOpened
| ChannelClosed
(* a row of call_signals addressed to the user *)
| SignalReceived (row : SignalRow)
(* buttons *)
| ClickMute
| ClickVideo
| ClickHangUp
| ClickTryAgain
| ClickGoBack
(* the router removes the component *)
| Unmount.

(** The code run for each event.  The component reads [call_signals] in no
    place and listens to no change of it, so a row addressed to the user
    runs nothing; it has no listener for the opening and closing of the data
    channel either, which only change what [send] will do. *)
Definition handler (e : Event) : M unit :=
  match e with
  | ProfileFetched data => fetchReceiver_resolved data
  | MediaResolved stream => initializeCall_resolved stream
  | MediaRejected name => initializeCall_rejected name
  | OfferCreated offer => createOffer_created offer
  | LocalDescriptionSet offer => createOffer_described offer
  | OfferFailed => createOffer_rejected
  | PresenceJoin newPresences => onPresenceJoin newPresences
  | PresenceLeave => onPresenceLeave
  | TrackEvent eventStreams => ontrack eventStreams
  | IceCandidateEvent candidate => onicecandidate candidate
  | ChannelMessage data => onmessage data
  | ChannelOpened =>
      update (fun s => if channelRef s is Some _ then with_channelOpen true s else s)
  | ChannelClosed => update (with_channelOpen false)
  | SignalReceived _ => skip
  | ClickMute => toggleMute
  | ClickVideo => toggleVideo
  | ClickHangUp => endCall
  | ClickTryAgain => initializeCall
  | ClickGoBack => emit (Navigate "/home")
  | Unmount => cleanup ;; update (with_mounted false)
  end.

(** What the console shows of an exception that nothing caught. *)
Definition uncaught {A} (o : Outcome A) : list Effect :=
  match o with
  | Done _ => []
  | Thrown name => [Uncaught name]
  end.

(** One event: its handler, then the render that follows. *)
Definition step (e : Event) (s : State) : State * list Effect :=
  let r := handler e s in (render (state_of r), calls r ++ uncaught (result r)).

(** The first render, then the effect. *)
Definition mount : State * list Effect :=
  let r := mountEffect (render initialState) in
  (render (state_of r), calls r ++ uncaught (result r)).

Fixpoint run_from (s : State) (log : list Effect) (es : list Event) : State * list Effect :=
  match es with
  | [] => (s, log)
  | e :: rest => let r := step e s in run_from (fst r) (log ++ snd r) rest
  end.

(** A session: the mount followed by the given events. *)
Definition run (es : list Event) : State * list Effect :=
  run_from (fst mount) (snd mount) es.

End Call.

(** ** Vocabulary of the specification *)

(** The states of the specification's state machine, read off the
    component's variables: the permission screen is shown exactly when
    [permissionError] is set, a peer connection exists once media has been
    acquired, and the call is active once a remote track has arrived. *)
Inductive Phase : Type := Acquiring | PermissionDenied | Connecting | Active.

Definition phase (s : State) : Phase :=
  match permissionError s, peerConnectionRef s with
  | Some _, _ => PermissionDenied
  | None, None => Acquiring
  | None, Some _ => if isCallActive s then Active else Connecting
  end.

(** The three termination triggers: the hang-up button, a presence-leave,
    and an [end-call] message on the data channel. *)
Definition teardownTrigger (e : Event) : bool :=
  match e with
  | ClickHangUp | PresenceLeave => true
  | ChannelMessage data =>
      match JSON_parse data with
      | Some (JObj fields) => strict_eq_str (assoc "type" fields) "end-call"
      | _ => false
      end
  | _ => false
  end.

(** The send of the termination notice raises: there is a data channel and
    it is not open. *)
Definition sendRaises (s : State) : bool :=
  match channelRef s with
  | Some _ => negb (channelOpen s)
  | None => false
  end.

(** [track.stop()] on every track of a stream. *)
Definition stopAll : MediaStream -> MediaStream := forEach_where (fun _ => true) stop.

Definition allEnded (st : option MediaStream) : Prop :=
  from_option (Forall (fun t => readyState t = Ended)) True st.

(** The state a teardown leaves when it runs to its end: the tracks of the
    stream on the local element stopped, the channel closed with the
    connection, and [isCallActive] cleared. *)
Definition released (s : State) : State :=
  let s1 := match localStream s with
            | Some sid => with_streams (alter stopAll sid (streams s)) s
            | None => s
            end in
  let s2 := match peerConnectionRef s with
            | Some _ => with_channelOpen false s1
            | None => s1
            end in
  if mounted s then with_isCallActive false s2 else s2.

(** The calls of a teardown that runs to its end. *)
Definition teardownCalls (s : State) : list Effect :=
  from_option (fun dc => [DcSend dc endCallMessage]) [] (channelRef s)
  ++ from_option (fun pc => [PcClose pc]) [] (peerConnectionRef s)
  ++ [Navigate "/home"].

(** A session that has been torn down: one of the triggers has run to its
    end, and the component may have been removed since. *)
Inductive TornDown (props : Props) : State -> Prop :=
| torn_down e s :
    teardownTrigger e = true -> sendRaises s = false ->
    TornDown props (fst (step props e s))
| torn_down_unmounted s :
    TornDown props s -> TornDown props (fst (step props Unmount s)).

(** The callbacks that come from signaling, from presence-leave, from the
    peer connection's candidates, from the data channel and from an offer
    creation in flight. *)
Definition lateCallback (e : Event) : bool :=
  match e with
  | SignalReceived _ | PresenceLeave | IceCandidateEvent _ | ChannelMessage _
  | OfferCreated _ | LocalDescriptionSet _ | OfferFailed => true
  | _ => false
  end.

(** Kinds of calls the claims speak about. *)
Definition answersOffer (c : Effect) : bool :=
  match c with
  | PcSetRemoteDescription _ _ | PcCreateAnswer _ => true
  | SignalsInsert row => String.eqb (type row) "answer"
  | _ => false
  end.

Definition appliesCandidate (c : Effect) : bool :=
  match c with PcAddIceCandidate _ _ => true | _ => false end.

Definition startsOffer (c : Effect) : bool :=
  match c with PcCreateOffer _ => true | _ => false end.

Definition relaysOffer (c : Effect) : bool :=
  match c with
  | SignalsInsert row => String.eqb (type row) "offer"
  | _ => false
  end.

Definition requestsMedia (c : Effect) : bool :=
  match c with GetUserMedia _ _ => true | _ => false end.

Definition unsubscribes (c : Effect) : bool :=
  match c with ChannelUnsubscribe _ => true | _ => false end.

(** The row that relays [payload] as a message of kind [kind] from the
    local participant to the remote one. *)
Definition relayed (props : Props) (kind : string) (payload : Json) : Effect :=
  SignalsInsert (mkSignal (userId props) (receiverId props) kind (JSON_stringify payload)).

(** The state a toggle leaves when the local element holds stream [sid]:
    the tracks selected by [p] are flipped in place, and the flag is
    negated through its setter. *)
Definition toggled (p : MediaStreamTrack -> bool) (sid : nat)
    (setFlag : State -> State) (s : State) : State :=
  let s' := with_streams (alter (forEach_where p flip_enabled) sid (streams s)) s in
  if mounted s then setFlag s' else s'.

Definition genericMessage : string := "Could not access camera or microphone.".

(** ** Two users and a camera, for the concrete sessions below *)

Module Scenario.

(** Alice's component for a call with Bob, and Bob's for a call with Alice. *)
Definition alice : Props := mkProps "bob" (Some "alice") "video".
Definition bob : Props := mkProps "alice" (Some "bob") "video".

(** The stream of a camera with a microphone. *)
Definition cam : MediaStream := [mkTrack Audio true Live; mkTrack Video true Live].

Definition sdp : Json := JObj [("type", JStr "offer"); ("sdp", JStr "v=0")].

Definition host : Json := JObj [("candidate", JStr "candidate:1 1 udp 1 10.0.0.1 9 typ host")].

Definition bobJoins : Event := PresenceJoin [mkPresence "bob"].

(** Alice's session while the permission prompt is open. *)
Definition acquiring : State := fst (mount alice).

(** Alice's session once her camera has been acquired. *)
Definition connecting : State := fst (run alice [MediaResolved cam]).

(** The same with the data channel open. *)
Definition connected : State := fst (run alice [MediaResolved cam; ChannelOpened]).

(** Alice's session with the permission screen shown. *)
Definition denied : State := fst (run alice [MediaRejected "NotAllowedError"]).

(** Alice hangs up while the permission prompt is still open. *)
Definition hungUp : State := fst (step alice ClickHangUp acquiring).

(** The router then removes the component. *)
Definition abandoned : State := fst (step alice Unmount hungUp).

End Scenario.

(** ** The rest of the component *)

(** [searchParams.get('type') || 'video']: the search parameter when it is
    there and not empty. *)
Definition callTypeOf (param : option string) : string :=
  match param with
  | None | Some "" => "video"
  | Some t => t
  end.

(** The component as the route [/call/:id] starts it. *)
Definition routed (id : string) (user : option string) (param : option string) : Props :=
  mkProps id user (callTypeOf param).

(** The text under the receiver's name:
    [isCallActive ? 'Connected' : (isConnecting ? 'Connecting...' : 'Ready')]. *)
Definition statusLabel (s : State) : string :=
  if isCallActive s then "Connected"
  else if isConnecting s then "Connecting..." else "Ready".

(** Whether the overlay with the spinner is on the screen: [isConnecting],
    on the call screen. *)
Definition overlayShown (s : State) : bool :=
  match permissionError s with
  | Some _ => false
  | None => isConnecting s
  end.

(** [o ? true : false] for a ref or an object that may be missing. *)
Definition has {A} (o : option A) : bool := from_option (fun _ => true) false o.

(** The values of the [useState] variables. *)
Definition stateVariables (s : State)
    : option Profile * bool * bool * bool * bool * option string :=
  (receiver s, isMuted s, isVideoEnabled s, isCallActive s, isConnecting s,
   permissionError s).

(** Track [j] of stream [i] of the store. *)
Definition trackAt (s : State) (i j : nat) : option MediaStreamTrack :=
  st ← streams s !! i; st !! j.

(** A track later in the session: still of the same kind, and still stopped
    if it was. *)
Definition track_follows (t t' : MediaStreamTrack) : Prop :=
  kind t' = kind t /\ (readyState t = Ended -> readyState t' = Ended).

Definition tracks_follow (s s' : State) : Prop :=
  forall i j t, trackAt s i j = Some t ->
    exists t', trackAt s' i j = Some t' /\ track_follows t t'.

(** The stream store after an event. *)
Definition streamsAfter (e : Event) (s : State) : list MediaStream :=
  match e with
  | MediaResolved stream => streams s ++ [stream]
  | ClickMute =>
      from_option (fun sid => alter (forEach_where is_audio flip_enabled) sid (streams s))
        (streams s) (localStream s)
  | ClickVideo =>
      from_option (fun sid => alter (forEach_where is_video flip_enabled) sid (streams s))
        (streams s) (localStream s)
  | _ =>
      if teardownTrigger e && negb (sendRaises s)
      then from_option (fun sid => alter stopAll sid (streams s)) (streams s) (localStream s)
      else streams s
  end.

(** The invariants of the refs and of the store in a session. *)
Record Coherent (s : State) : Prop := mkCoherent {
  coherent_refs : channelRef s = peerConnectionRef s;
  coherent_connections :
    from_option (fun pc => S pc = connections s) (connections s = 0)
      (peerConnectionRef s);
  coherent_open : channelOpen s = true -> is_Some (channelRef s);
  coherent_stream :
    from_option (fun sid => sid < length (streams s)) True (localStream s)
}.

(** A row relays from the local participant to the remote one, with one of
    the two kinds the component sends. *)
Definition wellAddressed (props : Props) (c : Effect) : Prop :=
  match c with
  | SignalsInsert row =>
      from_user row = userId props /\ to_user row = receiverId props
      /\ (type row = "ice-candidate" \/ type row = "offer")
  | _ => True
  end.

(** A call on a connection or a channel goes to the one in the ref, or to
    the connection being built, which gets the next number. *)
Definition onCurrentConnection (s : State) (c : Effect) : Prop :=
  match c with
  | PcClose pc | PcCreateOffer pc | PcSetLocalDescription pc _ =>
      peerConnectionRef s = Some pc
  | DcSend dc data =>
      channelRef s = Some dc /\ channelOpen s = true /\ data = endCallMessage
  | NewPeerConnection pc _ | PcAddTrack pc _ _ | PcCreateDataChannel pc _ =>
      pc = connections s
  | _ => True
  end.

Definition subscribes (c : Effect) : bool :=
  match c with ChannelSubscribe _ => true | _ => false end.

Definition isUnmount (e : Event) : bool :=
  match e with Unmount => true | _ => false end.

Definition onChannel (props : Props) (c : Effect) : Prop :=
  match c with
  | ChannelSubscribe name | ChannelUnsubscribe name => name = channelName props
  | _ => True
  end.

(** The calls an event can make in state [s]: every call on a connection
    or a channel goes to the one in the ref, a new connection gets the next
    number, and a row goes from the local participant to the remote one. *)
Inductive Made (props : Props) (s : State) : Effect -> Prop :=
| made_unsubscribe : Made props s (ChannelUnsubscribe (channelName props))
| made_getUserMedia : Made props s (GetUserMedia true (wantsVideo props))
| made_connection : Made props s (NewPeerConnection (connections s) iceServers)
| made_addTrack i :
    Made props s (PcAddTrack (connections s) (length (streams s)) i)
| made_dataChannel :
    Made props s (PcCreateDataChannel (connections s) "call-channel")
| made_createOffer pc :
    peerConnectionRef s = Some pc -> Made props s (PcCreateOffer pc)
| made_setLocalDescription pc offer :
    peerConnectionRef s = Some pc -> Made props s (PcSetLocalDescription pc offer)
| made_close pc : peerConnectionRef s = Some pc -> Made props s (PcClose pc)
| made_send dc :
    channelRef s = Some dc -> channelOpen s = true ->
    Made props s (DcSend dc endCallMessage)
| made_candidate c : Made props s (relayed props "ice-candidate" c)
| made_offer offer : Made props s (relayed props "offer" offer)
| made_navigate : Made props s (Navigate "/home")
| made_consoleError msg : Made props s (ConsoleError msg)
| made_uncaught name : Made props s (Uncaught name).

(** A voice call, as the Call button of the home page starts it. *)
Module Voice.

Definition alice : Props := routed "bob" (Some "alice") (Some "voice").

Definition mic : MediaStream := [mkTrack Audio true Live].

Definition connected : State := fst (run alice [MediaResolved mic; ChannelOpened]).

End Voice.

(** ** Basic facts about the state and the stream store *)

(** Of a repeated key the last value is the one a property lookup finds. *)
Lemma assoc_last k v fields : assoc k (fields ++ [(k, v)]) = Some v.
Proof.
  induction fields as [|[k' w] fields IH]; simpl.
  - by rewrite String.eqb_refl.
  - by rewrite IH.
Qed.

(** A key that does not occur gives [undefined]. *)
Lemma assoc_None k fields : assoc k fields = None <-> k ∉ fields.*1.
Proof.
  induction fields as [|[k' w] fields IH]; simpl.
  - split; [intros _; apply not_elem_of_nil | done].
  - rewrite not_elem_of_cons, <- IH. destruct (assoc k fields).
    + split; [done | by intros [_ ?]].
    + destruct (String.eqb_spec k' k) as [->|Hk]; [by split; [|intros [? _]] | done].
Qed.

(** A text with two [type] members is an [end-call] message exactly when
    the second one says so. *)
Lemma repeated_type_last_wins :
  teardownTrigger
    (ChannelMessage (JSON_stringify (JObj [("type", JStr "x"); ("type", JStr "end-call")])))
  = true
  /\ teardownTrigger
       (ChannelMessage (JSON_stringify (JObj [("type", JStr "end-call"); ("type", JStr "x")])))
     = false.
Proof. split; reflexivity. Qed.

Ltac destruct_state s :=
  destruct s as [mo re mu ve ca co pe lv rv pc ch op st cn].

(** Exposes the local [<video>] element, when there is one, down to its
    [srcObject]. *)
Ltac destruct_video lv := destruct lv as [[[?|]]|].

(** Unfolds the handlers down to the operations of [M]. *)
Ltac unfold_handlers :=
  unfold handler, onPresenceJoin, onPresenceLeave, onmessage, endCall, cleanup,
    toggleMute, toggleVideo, createOffer, createOffer_created,
    createOffer_described, createOffer_rejected, onicecandidate, ontrack,
    initializeCall, initializeCall_rejected, fetchReceiver_resolved,
    fetchReceiver, onStream, localStream, closeConnection, send in *.

(** Runs the handlers in the goal as far as the state is known. *)
Ltac run_handlers :=
  unfold_handlers;
  cbv [mbind M_bind mret M_ret read update setState emit skip throw try_catch
       state_of calls result];
  cbn.

Lemma flip_enabled_involutive t : flip_enabled (flip_enabled t) = t.
Proof. destruct t as [k e r]. unfold flip_enabled. simpl. by rewrite negb_involutive. Qed.

Lemma forEach_where_flip_twice p st :
  (forall t, p (flip_enabled t) = p t) ->
  forEach_where p flip_enabled (forEach_where p flip_enabled st) = st.
Proof.
  intros Hp. unfold forEach_where. induction st as [|t st IH]; simpl; [done|].
  rewrite IH. f_equal. destruct (p t) eqn:Ht.
  - by rewrite Hp, Ht, flip_enabled_involutive.
  - by rewrite Ht.
Qed.

Lemma forEach_where_stop_twice st :
  forEach_where (fun _ => true) stop (forEach_where (fun _ => true) stop st)
  = forEach_where (fun _ => true) stop st.
Proof. unfold forEach_where. induction st as [|t st IH]; simpl; [done|]. by rewrite IH. Qed.

Lemma forEach_where_stop_all st :
  Forall (fun t => readyState t = Ended) (forEach_where (fun _ => true) stop st).
Proof. unfold forEach_where. induction st; simpl; constructor; auto. Qed.

Lemma alter_twice_id (f : MediaStream -> MediaStream) i (l : list MediaStream) :
  (forall x, f (f x) = x) -> alter f i (alter f i l) = l.
Proof. intros Hf. rewrite list_alter_alter_eq. by apply list_alter_id. Qed.

Lemma alter_twice_same (f : MediaStream -> MediaStream) i (l : list MediaStream) :
  (forall x, f (f x) = f x) -> alter f i (alter f i l) = alter f i l.
Proof.
  intros Hf. rewrite list_alter_alter_eq.
  apply list_alter_ext; [intros x _; apply Hf | reflexivity].
Qed.

(** ** Mute and video toggles *)

(** C10.  Toggling mute twice, or video twice, gives back the state the
    session started from: the flag and the [enabled] field of every track of
    every stream.  With a stream on the local element one toggle flips the
    audio (respectively video) tracks of that stream and negates the flag;
    with none it changes nothing.  A toggle makes no call. *)
Theorem toggles_involutive (s : State) :
  state_of (toggleMute (state_of (toggleMute s))) = s
  /\ state_of (toggleVideo (state_of (toggleVideo s))) = s
  /\ calls (toggleMute s) = [] /\ calls (toggleVideo s) = []
  /\ match localStream s with
     | Some sid =>
         state_of (toggleMute s)
           = toggled is_audio sid (with_isMuted (negb (isMuted s))) s
         /\ state_of (toggleVideo s)
           = toggled is_video sid (with_isVideoEnabled (negb (isVideoEnabled s))) s
     | None => state_of (toggleMute s) = s /\ state_of (toggleVideo s) = s
     end.
Proof.
  assert (Ha : forall x, forEach_where is_audio flip_enabled
                 (forEach_where is_audio flip_enabled x) = x)
    by (intros; apply forEach_where_flip_twice; intros []; reflexivity).
  assert (Hv : forall x, forEach_where is_video flip_enabled
                 (forEach_where is_video flip_enabled x) = x)
    by (intros; apply forEach_where_flip_twice; intros []; reflexivity).
  destruct_state s. destruct_video lv; destruct mo; run_handlers;
    rewrite ?alter_twice_id, ?negb_involutive by assumption; auto 10.
Qed.

(** ** Media acquisition failures *)

(** C6 (as amended).  The three recognised failures get three different
    messages, none of them the generic one, and the message depends on the
    name of the failure only; a failure with any other name gets the
    generic message.  The message is what the catch block records. *)
Theorem errorMessage_classes :
  errorMessage "NotAllowedError"
    = "Please allow access to your camera and microphone to make calls."
  /\ errorMessage "NotFoundError"
    = "No camera or microphone found. Please check your device connections."
  /\ errorMessage "NotReadableError"
    = "Your camera or microphone is already in use by another application."
  /\ NoDup [errorMessage "NotAllowedError"; errorMessage "NotFoundError";
            errorMessage "NotReadableError"; genericMessage]
  /\ (forall name,
        errorMessage name = genericMessage <->
        name ∉ ["NotAllowedError"; "NotFoundError"; "NotReadableError"])
  /\ (forall name s,
        permissionError (state_of (initializeCall_rejected name s))
        = if mounted s then Some (errorMessage name) else permissionError s).
Proof.
  split_and!; try reflexivity.
  - rewrite !NoDup_cons, !not_elem_of_cons.
    split_and!; try discriminate; try apply not_elem_of_nil. apply NoDup_nil_2.
  - intros name. unfold errorMessage, genericMessage.
    rewrite !not_elem_of_cons.
    destruct (String.eqb_spec name "NotAllowedError") as [->|?];
      [split; [discriminate | intros (?&?&?&?); congruence]|].
    destruct (String.eqb_spec name "NotFoundError") as [->|?];
      [split; [discriminate | intros (?&?&?&?); congruence]|].
    destruct (String.eqb_spec name "NotReadableError") as [->|?];
      [split; [discriminate | intros (?&?&?&?); congruence]|].
    split; [intros _; split_and!; auto; apply not_elem_of_nil | done].
  - intros name s. destruct_state s. by destruct mo.
Qed.

(** C6, the claim as written fails: a failure named [AbortError], which
    [getUserMedia] can raise, is shown with the generic message. *)
Lemma unrecognised_failure_is_generic :
  errorMessage "AbortError" = genericMessage
  /\ permissionError (fst (run Scenario.alice [MediaRejected "AbortError"]))
     = Some "Could not access camera or microphone.".
Proof. split; reflexivity. Qed.

(** ** The presence channel *)

Lemma append_call_inj a b : "call:" +:+ a = "call:" +:+ b -> a = b.
Proof. cbn. by intros [= ?]. Qed.

(** C7 (as amended).  The channel the component subscribes to when it
    mounts is named by the text [call:] followed by the remote participant's
    identifier, whoever the local participant is and whatever the kind of
    call; the names computed by the two sides of a pair are equal exactly
    when the two identifiers are equal. *)
Theorem channelName_agree_iff (a b : string) (kindA kindB : string) :
  channelName (mkProps b (Some a) kindA) = "call:" +:+ b
  /\ last (snd (mount (mkProps b (Some a) kindA)))
     = Some (ChannelSubscribe (channelName (mkProps b (Some a) kindA)))
  /\ (channelName (mkProps b (Some a) kindA) = channelName (mkProps a (Some b) kindB)
      <-> a = b).
Proof.
  unfold channelName; simpl. split; [done|]. split; [reflexivity|]. split.
  - intros H. symmetry. by apply append_call_inj.
  - by intros ->.
Qed.

(** C7, the claim as written fails: Alice subscribes to [call:bob] and Bob
    to [call:alice]. *)
Lemma channelName_depends_on_direction :
  channelName Scenario.alice = "call:bob"
  /\ channelName Scenario.bob = "call:alice"
  /\ channelName Scenario.alice <> channelName Scenario.bob.
Proof. split_and!; [reflexivity|reflexivity|discriminate]. Qed.

(** ** Rendering *)

Lemma render_permissionError props s :
  permissionError (render props s) = permissionError s.
Proof. unfold render. destruct_state s. by destruct mo, pe. Qed.

Lemma render_sendRaises props s : sendRaises (render props s) = sendRaises s.
Proof. unfold render. destruct_state s. by destruct mo, pe. Qed.

Lemma render_idempotent props s : render props (render props s) = render props s.
Proof.
  unfold render. destruct_state s.
  destruct mo, pe, (wantsVideo props), lv, rv; reflexivity.
Qed.

Lemma render_with_isConnecting props b s :
  render props (with_isConnecting b s) = with_isConnecting b (render props s).
Proof. unfold render. destruct_state s. by destruct mo, pe. Qed.

Lemma step_rendered props e s : render props (fst (step props e s)) = fst (step props e s).
Proof. apply render_idempotent. Qed.

(** ** Teardown *)

(** Splits the state as far as the handlers look into it. *)
Ltac split_state s :=
  destruct s as [[|] re mu ve ca co pe [[[?|]]|] [?|] [?|] [?|] [|] st cn].

(** The routine stops at the send when that raises, and otherwise runs to
    its end. *)
Lemma endCall_run s :
  endCall s
  = if sendRaises s then (Thrown "InvalidStateError", s, [])
    else (Done tt, released s, teardownCalls s).
Proof. by split_state s. Qed.

Lemma render_channelRef props s : channelRef (render props s) = channelRef s.
Proof. unfold render. destruct_state s. by destruct mo, pe. Qed.

Lemma render_peerConnectionRef props s :
  peerConnectionRef (render props s) = peerConnectionRef s.
Proof. unfold render. destruct_state s. by destruct mo, pe. Qed.





Lemma stopAll_idempotent st : stopAll (stopAll st) = stopAll st.
Proof. apply forEach_where_stop_twice. Qed.

Lemma trigger_runs_endCall props e s :
  teardownTrigger e = true -> handler props e s = endCall s.
Proof.
  destruct e; try discriminate; try reflexivity.
  destruct data as [[| | | | |fields]|]; try discriminate.
  unfold handler, onmessage; simpl. by intros ->.
Qed.

Lemma step_trigger props e s :
  teardownTrigger e = true ->
  step props e s
  = if sendRaises s then (render props s, [Uncaught "InvalidStateError"])
    else (render props (released s), teardownCalls s).
Proof.
  intros He. unfold step. rewrite (trigger_runs_endCall props e s He), endCall_run.
  destruct (sendRaises s); cbn; by rewrite ?app_nil_r.
Qed.

(** After a teardown that ran to its end and the render that follows, a
    further teardown finds nothing to change. *)
Lemma released_settled props s :
  state_of (endCall (render props (released s))) = render props (released s).
Proof.
  rewrite endCall_run. destruct (sendRaises (render props (released s))); [done|].
  cbn [state_of fst snd]. unfold render. destruct (wantsVideo props).
  all: destruct_state s; destruct_video lv; destruct mo, pe, pc;
    unfold released; cbn;
    rewrite ?(alter_twice_same _ _ _ stopAll_idempotent); reflexivity.
Qed.

Lemma raised_settled props s :
  sendRaises s = true -> state_of (endCall (render props s)) = render props s.
Proof. intros Hs. by rewrite endCall_run, render_sendRaises, Hs. Qed.

Lemma teardown_settled props e s :
  teardownTrigger e = true ->
  state_of (endCall (fst (step props e s))) = fst (step props e s).
Proof.
  intros He. rewrite (step_trigger props e s He).
  destruct (sendRaises s) eqn:Hs; cbn [fst].
  - by apply raised_settled.
  - apply released_settled.
Qed.

(** A hang-up while the data channel is not open yet raises at the send and
    releases nothing: the tracks stay live, the connection stays open and
    the page stays where it is. *)
Lemma hang_up_before_channel_opens :
  phase Scenario.connecting = Connecting
  /\ step Scenario.alice ClickHangUp Scenario.connecting
     = (Scenario.connecting, [Uncaught "InvalidStateError"])
  /\ streams Scenario.connecting = [Scenario.cam].
Proof. split_and!; vm_compute; reflexivity. Qed.

(** The routine when its send does not raise.  The hang-up button, a
    presence-leave and an [end-call] message on the data channel all run
    [endCall]; that routine sends the notice on the data channel if there
    is one, stops every track of the stream on the local video element,
    closes the peer connection when there is one, clears [isCallActive] and
    navigates home, in this order.  It does not unsubscribe: the channel is
    left by the cleanup that runs when the component is removed. *)
Lemma endCall_when_send_succeeds (props : Props) (s : State) :
  sendRaises s = false ->
  handler props ClickHangUp s = endCall s
  /\ handler props PresenceLeave s = endCall s
  /\ handler props (ChannelMessage endCallMessage) s = endCall s
  /\ endCall s = (Done tt, released s, teardownCalls s)
  /\ from_option (fun sid => allEnded (streams (released s) !! sid)) True (localStream s)
  /\ isCallActive (released s) = (if mounted s then false else isCallActive s)
  /\ existsb unsubscribes (teardownCalls s) = false
  /\ calls (cleanup props s)
     = ChannelUnsubscribe (channelName props)
       :: from_option (fun pc => [PcClose pc]) [] (peerConnectionRef s).
Proof.
  intros Hs. split_and!; try reflexivity.
  - by rewrite endCall_run, Hs.
  - clear Hs. unfold released. destruct_state s. destruct_video lv; try exact I.
    assert (allEnded (alter stopAll n st !! n)) as H.
    { rewrite list_lookup_alter_eq. destruct (st !! n); simpl; [|exact I].
      apply forEach_where_stop_all. }
    by destruct mo, pc.
  - unfold released. destruct_state s. by destruct_video lv; destruct mo, pc.
  - unfold teardownCalls. by destruct (channelRef s), (peerConnectionRef s).
  - destruct_state s. by destruct pc.
Qed.




(** ** The calls of each handler *)

Lemma forEach_emit {A} (l : list A) (g : A -> Effect) s :
  forEach l (fun x s' => (Done tt, s', [g x])) s = (Done tt, s, map g l).
Proof.
  revert s. induction l as [|x l IH]; intros s; [reflexivity|].
  cbn [forEach]. cbv [mbind M_bind]. by rewrite IH.
Qed.

Lemma initializeCall_resolved_run stream s :
  initializeCall_resolved stream s
  = let pc := connections s in
    let sid := length (streams s) in
    let attached := (fun _ => mkVideo (Some sid)) <$> localVideoRef s in
    (Done tt,
     with_peerConnectionRef (Some pc)
       (with_channelOpen false
          (with_channelRef (Some pc)
             (with_connections (S pc)
                (with_videoRefs attached (remoteVideoRef s)
                   (with_streams (streams s ++ [stream]) s))))),
     NewPeerConnection pc iceServers
     :: map (PcAddTrack pc sid) (seq 0 (length stream))
     ++ [PcCreateDataChannel pc "call-channel"]).
Proof.
  unfold initializeCall_resolved.
  cbv [mbind M_bind mret M_ret read update emit].
  rewrite forEach_emit. destruct_state s. by destruct lv.
Qed.

Lemma existsb_map_false {A} (p : Effect -> bool) (g : A -> Effect) (l : list A) :
  (forall x, p (g x) = false) -> existsb p (map g l) = false.
Proof. intros Hp. induction l as [|x l IH]; simpl; [done|]. by rewrite Hp, IH. Qed.

(** A kind of call that is none of those [initializeCall] makes after the
    media has arrived is not made by that part. *)
Lemma initializeCall_resolved_makes_no (p : Effect -> bool) stream s :
  (forall pc servers, p (NewPeerConnection pc servers) = false) ->
  (forall pc sid i, p (PcAddTrack pc sid i) = false) ->
  (forall pc label, p (PcCreateDataChannel pc label) = false) ->
  existsb p (calls (initializeCall_resolved stream s)) = false.
Proof.
  intros H1 H2 H3. rewrite initializeCall_resolved_run. cbn [calls snd existsb].
  rewrite H1, existsb_app, existsb_map_false by (intros; apply H2).
  cbn. by rewrite H3.
Qed.

(** Settles a goal about [handler props e s] for each event [e], splitting
    the state and the event's payload where the handler looks at them. *)
Ltac each_handler s :=
  try (by split_state s);
  try (by apply initializeCall_resolved_makes_no);
  try (unfold handler, onPresenceJoin;
       match goal with
       | |- context [namesReceiver ?p ?np] => destruct (namesReceiver p np)
       end;
       by split_state s);
  try (match goal with |- context [IceCandidateEvent ?c] => destruct c end;
       by split_state s);
  try (match goal with
       | |- context [ChannelMessage ?d] => destruct d as [[| | | | |fields]|]
       end;
       try (by split_state s);
       unfold handler, onmessage; simpl;
       match goal with
       | |- context [strict_eq_str ?a ?b] => destruct (strict_eq_str a b)
       end;
       by split_state s).

(** The peer-connection calls of the callee's side and the application of
    remote candidates are made by no handler. *)
Lemma handler_never_answers props e s :
  existsb answersOffer (calls (handler props e s)) = false.
Proof. destruct e; each_handler s. Qed.

Lemma handler_never_applies_candidate props e s :
  existsb appliesCandidate (calls (handler props e s)) = false.
Proof. destruct e; each_handler s. Qed.

Lemma handler_requestsMedia props e s :
  existsb requestsMedia (calls (handler props e s))
  = match e with ClickTryAgain => true | _ => false end.
Proof. destruct e; each_handler s. Qed.

Lemma existsb_uncaught {A} (p : Effect -> bool) (o : Outcome A) :
  (forall name, p (Uncaught name) = false) -> existsb p (uncaught o) = false.
Proof. intros Hp. destruct o; simpl; [done|]. by rewrite Hp. Qed.

Lemma onPresenceJoin_run props np s :
  handler props (PresenceJoin np) s
  = (Done tt,
     (if mounted s && namesReceiver props np then with_isConnecting false s else s),
     if namesReceiver props np
     then from_option (fun pc => [PcCreateOffer pc]) [] (peerConnectionRef s)
     else []).
Proof.
  unfold handler, onPresenceJoin.
  destruct (namesReceiver props np); [by split_state s | by destruct (mounted s)].
Qed.

Lemma handler_startsOffer props e s :
  existsb startsOffer (calls (handler props e s))
  = match e with
    | PresenceJoin np =>
        namesReceiver props np && from_option (fun _ => true) false (peerConnectionRef s)
    | _ => false
    end.
Proof.
  destruct e; each_handler s.
Qed.

(** ** Signaling *)

(** C1, the claim as written fails: an offer from Bob addressed to Alice,
    arriving while her session is connecting, changes nothing and makes no
    call; no remote description is set and no answer is relayed. *)
Lemma offer_received_not_answered :
  phase Scenario.connecting = Connecting
  /\ step Scenario.alice
       (SignalReceived (mkSignal (Some "bob") "alice" "offer" (JSON_stringify Scenario.sdp)))
       Scenario.connecting
     = (Scenario.connecting, []).
Proof. split; vm_compute; reflexivity. Qed.

(** C1 (as amended).  A SignalMessage addressed to the local participant,
    an offer included, runs no code of the coordinator in any state: the
    session state stays as it is and no call is made.  Whatever the event
    and the state, the coordinator sets no remote description, creates no
    answer and relays no message of kind answer. *)
Theorem offer_received_runs_nothing (props : Props) :
  (forall s row, handler props (SignalReceived row) s = (Done tt, s, []))
  /\ (forall e s, existsb answersOffer (calls (handler props e s)) = false)
  /\ (forall e s, existsb answersOffer (snd (step props e s)) = false).
Proof.
  split_and!; [reflexivity | apply handler_never_answers |].
  intros e s. unfold step; cbn [snd].
  by rewrite existsb_app, handler_never_answers, existsb_uncaught.
Qed.

Lemma run_from_log props es : forall s log,
  snd (run_from props s log es) = log ++ snd (run_from props s [] es).
Proof.
  induction es as [|e es IH]; intros s log; cbn [run_from snd].
  - by rewrite app_nil_r.
  - rewrite IH, (IH _ ([] ++ snd (step props e s))). by rewrite app_nil_l, app_assoc.
Qed.

Lemma run_from_app props es1 es2 s log :
  run_from props s log (es1 ++ es2)
  = run_from props (fst (run_from props s log es1)) (snd (run_from props s log es1)) es2.
Proof.
  revert s log. induction es1 as [|e es1 IH]; intros s log; cbn [run_from app]; [done|].
  apply IH.
Qed.

(** C2, the claim as written fails: a candidate relayed by Bob to Alice is
    not applied to her peer connection. *)
Lemma remote_candidate_not_applied :
  phase Scenario.connecting = Connecting
  /\ step Scenario.alice
       (SignalReceived
          (mkSignal (Some "bob") "alice" "ice-candidate" (JSON_stringify Scenario.host)))
       Scenario.connecting
     = (Scenario.connecting, []).
Proof. split; vm_compute; reflexivity. Qed.

(** C2 (as amended).  In every state, hence in any order with respect to
    other candidates and to the offer, a candidate found locally is relayed
    at once as a message of kind ice-candidate from the local participant to
    the remote one, and the end-of-candidates event relays nothing; neither
    changes the session state.  The relay appears in the log of every
    session in which the candidate is found.  A message received from the
    remote participant runs no code, and no handler ever applies a candidate
    to the peer connection. *)
Theorem ice_candidates_relayed_not_applied (props : Props) :
  (forall s c,
     handler props (IceCandidateEvent (Some c)) s
     = (Done tt, s, [relayed props "ice-candidate" c]))
  /\ (forall s, handler props (IceCandidateEvent None) s = (Done tt, s, []))
  /\ (forall before after c,
        relayed props "ice-candidate" c
        ∈ snd (run props (before ++ IceCandidateEvent (Some c) :: after)))
  /\ (forall s row, handler props (SignalReceived row) s = (Done tt, s, []))
  /\ (forall e s, existsb appliesCandidate (calls (handler props e s)) = false).
Proof.
  split_and!; try reflexivity.
  - intros before after c. unfold run. rewrite run_from_app. cbn [run_from].
    rewrite run_from_log. apply elem_of_app. left. apply elem_of_app. right.
    apply list_elem_of_here.
  - apply handler_never_applies_candidate.
Qed.

(** ** After the teardown *)

(** A torn-down session is as the last render left it, and a further
    teardown finds nothing to change in it. *)
Lemma torn_down_settled props t :
  TornDown props t -> render props t = t /\ state_of (endCall t) = t.
Proof.
  induction 1 as [e s He Hs | s _ [Hr Hs]].
  - split; [apply step_rendered | by apply teardown_settled].
  - split; [apply step_rendered|]. clear Hr Hs.
    rewrite endCall_run. destruct (sendRaises _); [done|]. cbn [state_of fst snd].
    unfold step, render. by split_state s.
Qed.

Lemma lateCallback_state props e s :
  lateCallback e = true ->
  state_of (handler props e s) = s \/ state_of (handler props e s) = state_of (endCall s).
Proof.
  destruct e; try discriminate; intros _; try (by left); try (by right).
  - left. by split_state s.
  - left. by destruct candidate.
  - destruct data as [[| | | | |fields]|]; try (by left).
    unfold handler, onmessage; simpl.
    destruct (strict_eq_str (assoc "type" fields) "end-call"); [by right | by left].
Qed.

(** C5, the claim as written fails.  Alice hangs up while the permission
    prompt is open.  A presence-join that arrives next still clears
    [isConnecting]; and after the component has been removed, the pending
    acquisition, once the prompt is accepted, builds a peer connection and a
    data channel and stores them in the refs of the torn-down session. *)
Lemma pending_acquisition_resurrects_session :
  TornDown Scenario.alice Scenario.hungUp
  /\ isConnecting Scenario.hungUp = true
  /\ isConnecting (fst (step Scenario.alice Scenario.bobJoins Scenario.hungUp)) = false
  /\ TornDown Scenario.alice Scenario.abandoned
  /\ peerConnectionRef Scenario.abandoned = None
  /\ peerConnectionRef
       (fst (step Scenario.alice (MediaResolved Scenario.cam) Scenario.abandoned))
     = Some 0
  /\ snd (step Scenario.alice (MediaResolved Scenario.cam) Scenario.abandoned)
     = [NewPeerConnection 0 iceServers; PcAddTrack 0 0 0; PcAddTrack 0 0 1;
        PcCreateDataChannel 0 "call-channel"].
Proof.
  assert (TornDown Scenario.alice Scenario.hungUp) as Ht by (by apply torn_down).
  split_and!; try (vm_compute; reflexivity).
  - exact Ht.
  - by apply torn_down_unmounted.
Qed.

(** C5 (as amended).  In a session that has been torn down, a signaling
    message, a presence-leave, a local candidate, a data-channel message and
    the steps of an offer creation in flight leave the session state as it
    is.  They are not stopped, though: nothing checks that the session is
    alive, and an offer in flight still has its local description set and
    is still relayed.  A presence-join that names the remote participant
    changes [isConnecting] alone, and only while the component is mounted. *)
Theorem callbacks_after_teardown (props : Props) (t : State) :
  TornDown props t ->
  (forall e, lateCallback e = true -> fst (step props e t) = t)
  /\ (forall np,
        fst (step props (PresenceJoin np) t)
        = if mounted t && namesReceiver props np then with_isConnecting false t else t)
  /\ (forall offer,
        snd (step props (OfferCreated offer) t)
        = from_option (fun pc => [PcSetLocalDescription pc offer])
            [ConsoleError "Error creating offer:"] (peerConnectionRef t))
  /\ (forall offer,
        snd (step props (LocalDescriptionSet offer) t) = [relayed props "offer" offer]).
Proof.
  intros Ht. destruct (torn_down_settled props t Ht) as [Hr Hs]. split_and!.
  - intros e He. unfold step; cbn [fst snd].
    destruct (lateCallback_state props e t He) as [-> | ->]; by rewrite ?Hs.
  - intros np. unfold step; cbn [fst snd]. rewrite onPresenceJoin_run. cbn [state_of fst snd].
    destruct (mounted t && namesReceiver props np); [|done].
    by rewrite render_with_isConnecting, Hr.
  - intros offer. unfold step; cbn [fst snd]. by split_state t.
  - reflexivity.
Qed.

Lemma callbacks_after_teardown_witness :
  TornDown Scenario.alice Scenario.hungUp
  /\ fst (step Scenario.alice PresenceLeave Scenario.hungUp) = Scenario.hungUp
  /\ fst (step Scenario.alice Scenario.bobJoins Scenario.hungUp)
     = with_isConnecting false Scenario.hungUp.
Proof.
  assert (TornDown Scenario.alice Scenario.hungUp) as Ht by (by apply torn_down).
  destruct (callbacks_after_teardown Scenario.alice Scenario.hungUp Ht) as (Hq & Hj & _).
  split; [exact Ht|]. split.
  - apply Hq. reflexivity.
  - exact (Hj [mkPresence "bob"]).
Defined.

(** ** Who makes the offer *)

(** C8, the claim as written fails.  When each of Alice and Bob observes a
    presence-join naming the other, both create an offer and both relay it;
    and when Alice observes Bob's join before her media has been acquired,
    she creates none. *)
Lemma both_sides_make_offer :
  snd (step Scenario.alice Scenario.bobJoins Scenario.connecting) = [PcCreateOffer 0]
  /\ snd (step Scenario.bob (PresenceJoin [mkPresence "alice"])
            (fst (run Scenario.bob [MediaResolved Scenario.cam])))
     = [PcCreateOffer 0]
  /\ filter (fun c => relaysOffer c = true)
       (snd (run Scenario.alice
               [MediaResolved Scenario.cam; Scenario.bobJoins;
                OfferCreated Scenario.sdp; LocalDescriptionSet Scenario.sdp]))
     = [relayed Scenario.alice "offer" Scenario.sdp]
  /\ filter (fun c => relaysOffer c = true)
       (snd (run Scenario.bob
               [MediaResolved Scenario.cam; PresenceJoin [mkPresence "alice"];
                OfferCreated Scenario.sdp; LocalDescriptionSet Scenario.sdp]))
     = [relayed Scenario.bob "offer" Scenario.sdp]
  /\ phase Scenario.acquiring = Acquiring
  /\ snd (step Scenario.alice Scenario.bobJoins Scenario.acquiring) = [].
Proof. split_and!; vm_compute; reflexivity. Qed.

(** C8 (as amended).  Both participants run the same handler.  A
    participant starts an offer exactly when it observes a presence-join
    that names the remote participant while its own peer connection already
    exists; no other event starts one.  The offer, once created, is set as
    local description and then relayed as a message of kind offer.  The
    decision looks at the remote identifier only to find it among the new
    presences: the local identifier and the kind of call play no part, and
    nothing keeps both participants from making an offer. *)
Theorem offer_started_on_join (props : Props) :
  (forall np s,
     calls (handler props (PresenceJoin np) s)
     = if namesReceiver props np
       then from_option (fun pc => [PcCreateOffer pc]) [] (peerConnectionRef s)
       else [])
  /\ (forall e s,
        existsb startsOffer (calls (handler props e s))
        = match e with
          | PresenceJoin np =>
              namesReceiver props np
              && from_option (fun _ => true) false (peerConnectionRef s)
          | _ => false
          end)
  /\ (forall offer s,
        calls (handler props (OfferCreated offer) s)
        = from_option (fun pc => [PcSetLocalDescription pc offer])
            [ConsoleError "Error creating offer:"] (peerConnectionRef s))
  /\ (forall offer s,
        calls (handler props (LocalDescriptionSet offer) s)
        = [relayed props "offer" offer])
  /\ (forall remote local local' kind kind' np,
        namesReceiver (mkProps remote local kind) np
        = namesReceiver (mkProps remote local' kind') np).
Proof.
  split_and!; try reflexivity.
  - intros np s. by rewrite onPresenceJoin_run.
  - apply handler_startsOffer.
  - intros offer s. by split_state s.
Qed.

(** ** The permission screen *)

Lemma phase_denied s : phase s = PermissionDenied <-> is_Some (permissionError s).
Proof.
  unfold phase. destruct (permissionError s), (peerConnectionRef s), (isCallActive s);
    split; try discriminate; try (by eexists); try (by intros [? ?]).
Qed.

Lemma released_permissionError s : permissionError (released s) = permissionError s.
Proof. unfold released. destruct_state s. by destruct_video lv; destruct mo, pc. Qed.

Lemma step_keeps_permissionError props e s :
  e <> ClickTryAgain ->
  is_Some (permissionError s) ->
  is_Some (permissionError (fst (step props e s))).
Proof.
  intros He Hs. unfold step; cbn [fst snd]. rewrite render_permissionError.
  destruct e; try (by split_state s).
  - unfold handler. rewrite initializeCall_resolved_run. by destruct_state s.
  - rewrite onPresenceJoin_run. cbn [state_of fst snd].
    by destruct (mounted s && namesReceiver props newPresences), s.
  - by destruct candidate.
  - destruct data as [[| | | | |fields]|]; try done.
    unfold handler, onmessage; simpl.
    destruct (strict_eq_str (assoc "type" fields) "end-call"); [|done].
    by split_state s.
Qed.

(** C9, the claim as written fails.  With the permission screen shown,
    the Go Back button leaves the call without any retry, and so does a
    presence-leave, which runs the teardown; the component is then removed
    and the session never returns to acquiring. *)
Lemma permission_screen_left_without_retry :
  phase Scenario.denied = PermissionDenied
  /\ step Scenario.alice ClickGoBack Scenario.denied
     = (Scenario.denied, [Navigate "/home"])
  /\ step Scenario.alice PresenceLeave Scenario.denied
     = (Scenario.denied, [Navigate "/home"])
  /\ snd (run Scenario.alice [MediaRejected "NotAllowedError"; ClickGoBack; Unmount])
     = [ProfilesSelect "bob"; GetUserMedia true true; ChannelSubscribe "call:bob";
        ConsoleError "Error accessing media devices:"; Navigate "/home";
        ChannelUnsubscribe "call:bob"]
  /\ mounted (fst (run Scenario.alice
                     [MediaRejected "NotAllowedError"; ClickGoBack; Unmount]))
     = false.
Proof. split_and!; vm_compute; reflexivity. Qed.

(** C9 (as amended).  With the permission screen shown there is no
    implicit retry: every event other than the Try Again button leaves a
    failure recorded and requests no media.  Try Again clears the recorded
    failure and requests the media again, which is the only way back to
    acquiring.  The screen can also be left for the home page, by the Go
    Back button or by a teardown that a presence-leave starts; neither
    retries. *)
Theorem permission_error_cleared_by_retry_only (props : Props) (s : State) (e : Event) :
  mounted s = true ->
  phase s = PermissionDenied ->
  match e with
  | ClickTryAgain =>
      step props e s
      = (render props (with_permissionError None s),
         [GetUserMedia true (wantsVideo props)])
      /\ permissionError (fst (step props e s)) = None
      /\ match peerConnectionRef s with
         | None => phase (fst (step props e s)) = Acquiring
         | Some _ => True
         end
  | _ =>
      phase (fst (step props e s)) = PermissionDenied
      /\ existsb requestsMedia (snd (step props e s)) = false
  end
  /\ snd (step props ClickGoBack s) = [Navigate "/home"]
  /\ (if sendRaises s then True
      else last (snd (step props PresenceLeave s)) = Some (Navigate "/home")).
Proof.
  intros Hm Hp. apply phase_denied in Hp.
  assert (forall e', e' <> ClickTryAgain ->
            phase (fst (step props e' s)) = PermissionDenied
            /\ existsb requestsMedia (snd (step props e' s)) = false) as Hother.
  { intros e' He'. split.
    - by apply phase_denied, step_keeps_permissionError.
    - unfold step; cbn [snd].
      rewrite existsb_app, handler_requestsMedia, existsb_uncaught by done.
      by destruct e'. }
  split_and!.
  - destruct e; try (by apply Hother).
    destruct Hp as [m Hp]. destruct_state s. simpl in Hm, Hp. subst mo pe.
    split_and!; try reflexivity.
    destruct pc; [exact I|]. unfold step, render; simpl.
    by destruct (wantsVideo props).
  - reflexivity.
  - rewrite (step_trigger props PresenceLeave s eq_refl).
    destruct (sendRaises s); [exact I|]. cbn [snd].
    unfold teardownCalls. by rewrite app_assoc, last_snoc.
Qed.

Lemma permission_error_cleared_by_retry_only_witness :
  mounted Scenario.denied = true
  /\ phase Scenario.denied = PermissionDenied
  /\ step Scenario.alice ClickTryAgain Scenario.denied
     = (Scenario.acquiring, [GetUserMedia true true])
  /\ phase (fst (step Scenario.alice ClickTryAgain Scenario.denied)) = Acquiring
  /\ phase (fst (step Scenario.alice Scenario.bobJoins Scenario.denied))
     = PermissionDenied.
Proof.
  split; [reflexivity|]. split; [reflexivity|].
  pose proof (permission_error_cleared_by_retry_only Scenario.alice Scenario.denied
                ClickTryAgain eq_refl eq_refl) as [(Hstep & _ & Hphase) _].
  pose proof (permission_error_cleared_by_retry_only Scenario.alice Scenario.denied
                Scenario.bobJoins eq_refl eq_refl) as [[Hjoin _] _].
  split; [exact Hstep|]. split; [exact Hphase | exact Hjoin].
Defined.

(** ** Audio-only calls *)

Lemma render_audio_only props s :
  wantsVideo props = false -> localStream (render props s) = None.
Proof. intros Hw. unfold render. rewrite Hw. destruct_state s. by destruct mo, pe. Qed.

Lemma render_streams props s : streams (render props s) = streams s.
Proof. unfold render. destruct_state s. by destruct mo, pe. Qed.

Lemma run_from_rendered props es : forall s log,
  render props s = s ->
  render props (fst (run_from props s log es)) = fst (run_from props s log es).
Proof.
  induction es as [|e es IH]; intros s log Hs; cbn [run_from fst]; [exact Hs|].
  apply IH, step_rendered.
Qed.

(** Every state of a session is as a render left it. *)
Lemma run_rendered props es : render props (fst (run props es)) = fst (run props es).
Proof. apply run_from_rendered, render_idempotent. Qed.

(** In a call without video the local element does not exist, so the
    stream acquired is attached nowhere and no teardown stops its tracks. *)
Lemma audio_call_tracks_never_stopped props es e :
  wantsVideo props = false ->
  teardownTrigger e = true ->
  streams (fst (step props e (fst (run props es)))) = streams (fst (run props es)).
Proof.
  intros Hw He. rewrite (step_trigger props e _ He).
  pose proof (render_audio_only props (fst (run props es)) Hw) as Hnone.
  rewrite run_rendered in Hnone.
  destruct (sendRaises _); cbn [fst]; rewrite render_streams; [done|].
  unfold released. rewrite Hnone.
  by destruct (peerConnectionRef _), (mounted _).
Qed.

(** ** Reasoning over whole sessions *)

(** A property of the state that the mount establishes and every event
    keeps holds in every state of every session. *)
Lemma run_from_invariant props (I : State -> Prop) :
  (forall e s, I s -> I (fst (step props e s))) ->
  forall es s log, I s -> I (fst (run_from props s log es)).
Proof.
  intros Hstep. induction es as [|e es IH]; intros s log Hs; cbn [run_from fst]; [done|].
  by apply IH, Hstep.
Qed.

Lemma run_invariant props (I : State -> Prop) es :
  I (fst (mount props)) ->
  (forall e s, I s -> I (fst (step props e s))) ->
  I (fst (run props es)).
Proof. intros H0 Hstep. unfold run. by apply run_from_invariant. Qed.

(** A property of the calls that holds for the mount and for every event
    holds for the whole log of a session.  The property may depend on the
    state in which the call is made. *)
Lemma run_from_log_Forall props (P : Effect -> Prop) (I : State -> Prop) :
  (forall e s, I s -> I (fst (step props e s))) ->
  (forall e s, I s -> Forall P (snd (step props e s))) ->
  forall es s log, I s -> Forall P log -> Forall P (snd (run_from props s log es)).
Proof.
  intros HI HP. induction es as [|e es IH]; intros s log Hs Hlog; cbn [run_from snd]; [done|].
  apply IH; [by apply HI|]. apply Forall_app. split; [done | by apply HP].
Qed.

Lemma mount_run props :
  mount props
  = (render props initialState,
     [ProfilesSelect (receiverId props); GetUserMedia true (wantsVideo props);
      ChannelSubscribe (channelName props)]).
Proof.
  unfold mount, mountEffect, initializeCall, fetchReceiver, render.
  cbv [mbind M_bind mret M_ret emit update setState]. cbn.
  by destruct (wantsVideo props).
Qed.

(** The number of calls of one kind in a session is the number made at the
    mount plus, for each event, the number its step makes. *)
Lemma run_from_count props (p : Effect -> bool) (k : Event -> nat) :
  (forall e s, length (filter (fun c => p c = true) (snd (step props e s))) = k e) ->
  forall es s log,
    length (filter (fun c => p c = true) (snd (run_from props s log es)))
    = length (filter (fun c => p c = true) log) + sum_list (k <$> es).
Proof.
  intros Hk. induction es as [|e es IH]; intros s log; cbn [run_from snd fmap list_fmap sum_list].
  - lia.
  - rewrite IH, filter_app, length_app, Hk. simpl. lia.
Qed.

(** ** The calls a step can make *)

Lemma Forall_Made_uncaught props s {A} (o : Outcome A) :
  Forall (Made props s) (uncaught o).
Proof. destruct o; repeat constructor. Qed.

Lemma handler_made props e s : Forall (Made props s) (calls (handler props e s)).
Proof.
  destruct e.
  3-6,8-9,12-20: split_state s; repeat first [apply Forall_nil | apply Forall_cons; split];
    by constructor.
  - by split_state s.
  - unfold handler. rewrite initializeCall_resolved_run. cbn [calls snd].
    apply Forall_cons; split; [constructor|]. apply Forall_app; split.
    + apply Forall_map, Forall_forall. intros; constructor.
    + repeat constructor.
  - rewrite onPresenceJoin_run. cbn [calls snd].
    destruct (namesReceiver props newPresences); [|constructor].
    destruct (peerConnectionRef s) eqn:Hpc; repeat constructor. done.
  - destruct candidate; repeat constructor.
  - destruct data as [[| | | | |fields]|]; try (by repeat constructor).
    unfold handler, onmessage; simpl.
    destruct (strict_eq_str (assoc "type" fields) "end-call"); [|constructor].
    split_state s; repeat first [apply Forall_nil | apply Forall_cons; split];
      by constructor.
Qed.

Lemma step_made props e s : Forall (Made props s) (snd (step props e s)).
Proof.
  unfold step; cbn [snd]. apply Forall_app; split;
    [apply handler_made | apply Forall_Made_uncaught].
Qed.

(** X1.  Every row the component inserts into [call_signals], in any
    session, goes from the local participant to the remote one and is of
    kind ice-candidate or offer; and every subscription and unsubscription
    is for the channel named after the remote participant. *)
Theorem signals_well_addressed (props : Props) (es : list Event) :
  Forall (wellAddressed props) (snd (run props es))
  /\ Forall (onChannel props) (snd (run props es)).
Proof.
  split; unfold run.
  - apply (run_from_log_Forall props _ (fun _ => True)); try done.
    + intros e s _. eapply Forall_impl; [apply step_made|].
      intros c Hc. destruct Hc; cbn; auto.
    + rewrite mount_run. repeat constructor.
  - apply (run_from_log_Forall props _ (fun _ => True)); try done.
    + intros e s _. eapply Forall_impl; [apply step_made|].
      intros c Hc. by destruct Hc.
    + rewrite mount_run. repeat constructor.
Qed.

(** X2.  Whatever the event and the state, a call on a peer connection (an
    offer creation, a local description, a close) goes to the connection in
    [peerConnectionRef], and a message is sent only on the channel in
    [channelRef], only when it is open, and is the end-call notice; a
    connection being built gets the next free number.  So a connection that
    a later acquisition has replaced in the ref is never closed. *)
Theorem calls_on_current_connection (props : Props) (e : Event) (s : State) :
  Forall (onCurrentConnection s) (snd (step props e s)).
Proof.
  eapply Forall_impl; [apply step_made|].
  intros c Hc. by destruct Hc.
Qed.

(** ** Subscription *)

Lemma count_none (p : Effect -> bool) (l : list Effect) :
  existsb p l = false -> length (filter (fun c => p c = true) l) = 0.
Proof.
  induction l as [|c l IH]; [done|]. cbn [existsb]. intros [Hc Hl]%orb_false_iff.
  rewrite filter_cons_False by (by rewrite Hc). by apply IH.
Qed.

Lemma made_never_subscribes props s l :
  Forall (Made props s) l -> existsb subscribes l = false.
Proof. induction 1 as [|c l Hc _ IH]; [done|]. cbn [existsb]. rewrite IH. by destruct Hc. Qed.

Lemma step_unsubscribes props e s :
  length (filter (fun c => unsubscribes c = true) (snd (step props e s)))
  = if isUnmount e then 1 else 0.
Proof.
  destruct (isUnmount e) eqn:He.
  - destruct e; try discriminate. by split_state s.
  - apply count_none. unfold step; cbn [snd].
    rewrite existsb_app, existsb_uncaught, orb_false_r by done.
    destruct e; try discriminate; each_handler s.
Qed.

Lemma sum_list_indicator (p : Event -> bool) (es : list Event) :
  sum_list ((fun e => if p e then 1 else 0) <$> es)
  = length (filter (fun e => p e = true) es).
Proof.
  induction es as [|e es IH]; [done|]. cbn [fmap list_fmap sum_list]. rewrite IH.
  destruct (p e) eqn:He.
  - by rewrite filter_cons_True by done.
  - by rewrite filter_cons_False by (by rewrite He).
Qed.

(** X3.  A session subscribes to its channel once, at the mount, whatever
    happens afterwards (a retry does not subscribe again); and it
    unsubscribes once for each time the component is removed, never
    otherwise: neither a hang-up nor the Go Back button leaves the channel
    by itself. *)
Theorem subscribed_once (props : Props) (es : list Event) :
  filter (fun c => subscribes c = true) (snd (run props es))
  = [ChannelSubscribe (channelName props)]
  /\ length (filter (fun c => unsubscribes c = true) (snd (run props es)))
     = length (filter (fun e => isUnmount e = true) es).
Proof.
  unfold run. rewrite mount_run. cbn [fst snd]. split.
  - rewrite run_from_log, filter_app.
    assert (filter (fun c => subscribes c = true)
              (snd (run_from props (render props initialState) [] es)) = []) as ->.
    { apply length_zero_iff_nil.
      rewrite (run_from_count props subscribes (fun _ => 0)).
      - cbn. induction es; [done|]. by cbn.
      - intros e s. apply count_none, (made_never_subscribes props s), step_made. }
    by rewrite app_nil_r.
  - rewrite (run_from_count props unsubscribes (fun e => if isUnmount e then 1 else 0))
      by apply step_unsubscribes.
    by rewrite sum_list_indicator.
Qed.

(** ** Invariants of a session *)

Lemma render_coherent props s : Coherent s -> Coherent (render props s).
Proof.
  intros [H1 H2 H3 H4]. unfold render.
  destruct_state s; destruct_video lv; destruct mo, pe, (wantsVideo props);
    constructor; cbn in *; auto.
Qed.

(** Settles one case of the preservation of [Coherent]. *)
Ltac coherent_case s :=
  let H := fresh "H" in
  intros [? ? H ?]; split_state s; constructor; run_handlers; cbn in *;
  rewrite ?length_alter; try done; try lia; try (intros; by apply H).

Lemma endCall_coherent s : Coherent s -> Coherent (state_of (endCall s)).
Proof.
  rewrite endCall_run. destruct (sendRaises s); [done|]. cbn [state_of fst snd].
  intros [H1 H2 H3 H4]. unfold released.
  destruct_state s; destruct_video lv; destruct mo, pc; constructor; cbn in *;
    rewrite ?length_alter; try done.
Qed.

Lemma handler_coherent props e s :
  Coherent s -> Coherent (state_of (handler props e s)).
Proof.
  destruct e; try apply endCall_coherent; try (by coherent_case s).
  - intros [H1 H2 H3 H4]. unfold handler. rewrite initializeCall_resolved_run.
    destruct_state s. destruct lv; constructor; cbn in *;
      rewrite ?length_app; cbn; try done; lia.
  - rewrite onPresenceJoin_run. cbn [state_of fst snd].
    destruct (mounted s && namesReceiver props newPresences); [|done].
    by coherent_case s.
  - destruct candidate; by coherent_case s.
  - destruct data as [[| | | | |fields]|]; try done.
    unfold handler, onmessage; simpl.
    destruct (strict_eq_str (assoc "type" fields) "end-call");
      [apply endCall_coherent | done].
Qed.

Lemma step_coherent props e s : Coherent s -> Coherent (fst (step props e s)).
Proof. intros Hs. by apply render_coherent, handler_coherent. Qed.

(** X4.  In every state of every session the two refs are set together and
    hold the connection built last, whose number is one less than the number
    of connections built; the data channel can be open only if there is one;
    and the stream on the local video element is one of those acquired. *)
Theorem session_coherent (props : Props) (es : list Event) :
  Coherent (fst (run props es)).
Proof.
  apply run_invariant; [|apply step_coherent].
  rewrite mount_run. unfold render. cbn.
  destruct (wantsVideo props); by constructor.
Qed.

(** ** The tracks through a session *)

Lemma step_streams props e s : streams (fst (step props e s)) = streamsAfter e s.
Proof.
  unfold step; cbn [fst]. rewrite render_streams.
  destruct e; try (by split_state s).
  - unfold handler. rewrite initializeCall_resolved_run. by destruct_state s.
  - rewrite onPresenceJoin_run. cbn [state_of fst snd].
    by destruct (mounted s && namesReceiver props newPresences), s.
  - by destruct candidate.
  - destruct data as [[| | | | |fields]|]; try done.
    unfold handler, onmessage, streamsAfter; simpl.
    destruct (strict_eq_str (assoc "type" fields) "end-call"); [|done].
    by split_state s.
Qed.

Lemma lookup_forEach_where p g (st : MediaStream) j :
  forEach_where p g st !! j = (fun t => if p t then g t else t) <$> st !! j.
Proof.
  unfold forEach_where. revert j. induction st as [|t st IH]; intros [|j]; cbn; auto.
Qed.

Lemma track_follows_refl t : track_follows t t.
Proof. by split. Qed.

Lemma track_follows_trans t1 t2 t3 :
  track_follows t1 t2 -> track_follows t2 t3 -> track_follows t1 t3.
Proof. intros [H1 H2] [H3 H4]. split; [congruence | auto]. Qed.

Lemma tracks_follow_refl s : tracks_follow s s.
Proof. intros i j t Ht. exists t. split; [done | apply track_follows_refl]. Qed.

Lemma tracks_follow_trans s1 s2 s3 :
  tracks_follow s1 s2 -> tracks_follow s2 s3 -> tracks_follow s1 s3.
Proof.
  intros H12 H23 i j t Ht. destruct (H12 i j t Ht) as (t2 & Ht2 & Hf2).
  destruct (H23 i j t2 Ht2) as (t3 & Ht3 & Hf3).
  exists t3. split; [done | by eapply track_follows_trans].
Qed.

(** A track of the store after the tracks chosen by [p] in stream [sid]
    have been changed by [g]. *)
Lemma trackAt_alter p g sid s s' i j :
  streams s' = alter (forEach_where p g) sid (streams s) ->
  trackAt s' i j
  = (fun t => if bool_decide (i = sid) && p t then g t else t) <$> trackAt s i j.
Proof.
  intros Hs. unfold trackAt. rewrite Hs, list_lookup_alter.
  destruct (decide (sid = i)) as [->|Hne].
  - rewrite bool_decide_eq_true_2 by done.
    destruct (streams s !! i) as [st|]; [|done]. cbn.
    rewrite lookup_forEach_where. by destruct (st !! j).
  - rewrite bool_decide_eq_false_2 by done.
    destruct (streams s !! i) as [st|]; [|done]. cbn. by destruct (st !! j).
Qed.

Lemma trackAt_app s s' extra i j t :
  streams s' = streams s ++ extra -> trackAt s i j = Some t -> trackAt s' i j = Some t.
Proof.
  intros Hs. unfold trackAt. rewrite Hs.
  destruct (streams s !! i) as [st|] eqn:Hst; [|done].
  by rewrite (lookup_app_l_Some _ _ _ _ Hst).
Qed.

Lemma tracks_follow_alter p g sid s s' :
  (forall t, track_follows t (g t)) ->
  streams s' = alter (forEach_where p g) sid (streams s) ->
  tracks_follow s s'.
Proof.
  intros Hg Hs i j t Ht. rewrite (trackAt_alter p g sid s s' i j Hs), Ht. cbn.
  eexists; split; [done|].
  destruct (bool_decide (i = sid) && p t); [apply Hg | apply track_follows_refl].
Qed.

Lemma tracks_follow_same s s' : streams s' = streams s -> tracks_follow s s'.
Proof. intros Hs i j t Ht. exists t. unfold trackAt in *. by rewrite Hs. Qed.

Lemma step_tracks_follow props e s : tracks_follow s (fst (step props e s)).
Proof.
  pose proof (step_streams props e s) as Hs.
  assert (forall t, track_follows t (flip_enabled t)) as Hflip by (by intros []).
  assert (forall t, track_follows t (stop t)) as Hstop by (by intros []).
  assert (forall u, streams u = streamsAfter e s -> tracks_follow s u) as Hall.
  { intros u Hu. destruct e; cbn [streamsAfter teardownTrigger andb] in Hu;
      try (by apply tracks_follow_same).
    - intros i j t Ht. exists t. split; [|apply track_follows_refl].
      by eapply trackAt_app.
    - destruct (negb (sendRaises s)), (localStream s); cbn in Hu;
        first [by apply tracks_follow_same
              | eapply (tracks_follow_alter _ stop); [apply Hstop | exact Hu]].
    - destruct (_ && _), (localStream s); cbn in Hu;
        first [by apply tracks_follow_same
              | eapply (tracks_follow_alter _ stop); [apply Hstop | exact Hu]].
    - destruct (localStream s); cbn in Hu;
        first [by apply tracks_follow_same
              | eapply (tracks_follow_alter _ flip_enabled); [apply Hflip | exact Hu]].
    - destruct (localStream s); cbn in Hu;
        first [by apply tracks_follow_same
              | eapply (tracks_follow_alter _ flip_enabled); [apply Hflip | exact Hu]].
    - destruct (negb (sendRaises s)), (localStream s); cbn in Hu;
        first [by apply tracks_follow_same
              | eapply (tracks_follow_alter _ stop); [apply Hstop | exact Hu]]. }
  by apply Hall.
Qed.

(** X5.  Through any sequence of events, from any state, every track of the
    store stays in its place and keeps its kind, and a track that has been
    stopped stays stopped: nothing removes a stream, and nothing sets a
    track live again. *)
Theorem stopped_tracks_stay_stopped (props : Props) (s : State)
    (log : list Effect) (es : list Event) :
  tracks_follow s (fst (run_from props s log es)).
Proof.
  apply (run_from_invariant props (tracks_follow s)); [|apply tracks_follow_refl].
  intros e s' Hs'. eapply tracks_follow_trans; [done | apply step_tracks_follow].
Qed.

(** X6.  A track changes only through the button or the trigger meant for
    it.  Its [readyState] changes only by a teardown that runs to its end,
    which stops it, and only if its stream is on the local video element;
    its [enabled] field changes only by the mute button if it is an audio
    track and by the video button if it is a video track, which negate it.
    So the cleanup at removal and the Go Back button stop no track, and the
    mute button never touches a video track. *)
Theorem tracks_changed_only_by (props : Props) (e : Event) (s : State)
    (i j : nat) (t t' : MediaStreamTrack) :
  trackAt s i j = Some t ->
  trackAt (fst (step props e s)) i j = Some t' ->
  (readyState t' = readyState t
   \/ (teardownTrigger e = true /\ sendRaises s = false /\ localStream s = Some i
       /\ readyState t' = Ended))
  /\ (enabled t' = enabled t
      \/ (localStream s = Some i /\ enabled t' = negb (enabled t)
          /\ (e = ClickMute /\ kind t = Audio \/ e = ClickVideo /\ kind t = Video))).
Proof.
  intros Ht Ht'. pose proof (step_streams props e s) as Hs.
  assert (streams (fst (step props e s)) = streams s -> t' = t) as Hsame.
  { intros Heq. unfold trackAt in *. rewrite Heq in Ht'. congruence. }
  assert (forall p g sid,
            streams (fst (step props e s)) = alter (forEach_where p g) sid (streams s) ->
            t' = if bool_decide (i = sid) && p t then g t else t) as Halter.
  { intros p g sid Heq. rewrite (trackAt_alter p g sid s _ i j Heq), Ht in Ht'.
    cbn in Ht'. congruence. }
  assert (forall sid, localStream s = Some sid ->
            streams (fst (step props e s)) = alter stopAll sid (streams s) ->
            teardownTrigger e = true -> sendRaises s = false ->
            (readyState t' = readyState t
             \/ (teardownTrigger e = true /\ sendRaises s = false
                 /\ localStream s = Some i /\ readyState t' = Ended))
            /\ (enabled t' = enabled t
                \/ (localStream s = Some i /\ enabled t' = negb (enabled t)
                    /\ (e = ClickMute /\ kind t = Audio
                        \/ e = ClickVideo /\ kind t = Video)))) as Hstop.
  { intros sid Hsid Heq He Hr. rewrite (Halter _ _ _ Heq). cbn.
    destruct (bool_decide_reflect (i = sid)) as [->|?]; cbn; auto 10. }
  destruct e; cbn [streamsAfter teardownTrigger andb] in Hs;
    try (rewrite (Hsame Hs); by auto).
  - rewrite (trackAt_app s _ [stream] i j t Hs Ht) in Ht'.
    injection Ht' as <-. auto.
  - destruct (sendRaises s) eqn:Hr, (localStream s) eqn:Hl; cbn in Hs;
      first [rewrite (Hsame Hs); by auto | by eapply Hstop].
  - destruct (match JSON_parse data with Some (JObj _) => _ | _ => _ end) eqn:Hd,
      (sendRaises s) eqn:Hr, (localStream s) eqn:Hl; cbn in Hs;
      first [rewrite (Hsame Hs); by auto | by eapply Hstop].
  - destruct (localStream s) as [sid|] eqn:Hl; cbn in Hs; [|rewrite (Hsame Hs); by auto].
    rewrite (Halter _ _ _ Hs).
    destruct (bool_decide_reflect (i = sid)) as [->|?]; cbn; [|by auto].
    unfold is_audio. destruct (kind t) eqn:Hk; cbn; auto 10.
  - destruct (localStream s) as [sid|] eqn:Hl; cbn in Hs; [|rewrite (Hsame Hs); by auto].
    rewrite (Halter _ _ _ Hs).
    destruct (bool_decide_reflect (i = sid)) as [->|?]; cbn; [|by auto].
    unfold is_video. destruct (kind t) eqn:Hk; cbn; auto 10.
  - destruct (sendRaises s) eqn:Hr, (localStream s) eqn:Hl; cbn in Hs;
      first [rewrite (Hsame Hs); by auto | by eapply Hstop].
Qed.

Lemma tracks_changed_only_by_witness :
  trackAt Scenario.connecting 0 0 = Some (mkTrack Audio true Live)
  /\ trackAt (fst (step Scenario.alice ClickMute Scenario.connecting)) 0 0
     = Some (mkTrack Audio false Live)
  /\ (enabled (mkTrack Audio false Live) = enabled (mkTrack Audio true Live)
      \/ (localStream Scenario.connecting = Some 0
          /\ enabled (mkTrack Audio false Live) = negb (enabled (mkTrack Audio true Live))
          /\ (ClickMute = ClickMute /\ kind (mkTrack Audio true Live) = Audio
              \/ ClickMute = ClickVideo /\ kind (mkTrack Audio true Live) = Video))).
Proof.
  split; [reflexivity|]. split; [reflexivity|].
  exact (proj2 (tracks_changed_only_by Scenario.alice ClickMute Scenario.connecting
                  0 0 _ _ eq_refl eq_refl)).
Defined.

(** ** The state variables through a session *)

Lemma render_stateVariables props s : stateVariables (render props s) = stateVariables s.
Proof. unfold render. destruct_state s. by destruct mo, pe. Qed.

Lemma render_mounted props s : mounted (render props s) = mounted s.
Proof. unfold render. destruct_state s. by destruct mo, pe. Qed.

(** Computes a variable of the state after a step, event by event. *)
Ltac each_step s :=
  match goal with |- context [handler _ ?e _] => destruct e end;
  try (by split_state s);
  try (unfold handler; rewrite initializeCall_resolved_run; by split_state s);
  try (rewrite onPresenceJoin_run; cbn [state_of fst snd];
       match goal with
       | |- context [namesReceiver ?p ?np] => destruct (namesReceiver p np)
       end;
       by split_state s);
  try (match goal with |- context [IceCandidateEvent ?c] => destruct c end;
       by split_state s);
  try (match goal with
       | |- context [ChannelMessage ?d] => destruct d as [[| | | | |fields]|]
       end;
       try (by split_state s);
       unfold handler, onmessage, teardownTrigger; simpl;
       match goal with
       | |- context [strict_eq_str ?a ?b] => destruct (strict_eq_str a b)
       end;
       by split_state s).

Lemma step_stateVariables props e s :
  stateVariables (fst (step props e s))
  = if mounted s then
      (match e with ProfileFetched data => data | _ => receiver s end,
       match e with
       | ClickMute => if has (localStream s) then negb (isMuted s) else isMuted s
       | _ => isMuted s
       end,
       match e with
       | ClickVideo =>
           if has (localStream s) then negb (isVideoEnabled s) else isVideoEnabled s
       | _ => isVideoEnabled s
       end,
       match e with
       | TrackEvent _ => if has (remoteVideoRef s) then true else isCallActive s
       | _ =>
           if teardownTrigger e && negb (sendRaises s) then false else isCallActive s
       end,
       match e with
       | PresenceJoin np => if namesReceiver props np then false else isConnecting s
       | TrackEvent _ => if has (remoteVideoRef s) then false else isConnecting s
       | _ => isConnecting s
       end,
       match e with
       | MediaRejected name => Some (errorMessage name)
       | ClickTryAgain => None
       | _ => permissionError s
       end)
    else stateVariables s.
Proof.
  unfold step; cbn [fst]. rewrite render_stateVariables. each_step s.
Qed.

Lemma step_mounted props e s :
  mounted (fst (step props e s)) = mounted s && negb (isUnmount e).
Proof. unfold step; cbn [fst]. rewrite render_mounted. each_step s. Qed.

(** X7.  What an event does to the state variables of a mounted component:
    the profile is set by its fetch; the mute and video flags are negated by
    their buttons, and only when a stream is on the local video element;
    [isCallActive] is set by a remote track when the remote element exists
    and cleared by a teardown that runs to its end; [isConnecting] is
    cleared by a presence-join that names the remote participant and by a
    remote track, and set by nothing; the permission error is recorded by a
    failed acquisition and cleared by a retry.  Nothing else changes them,
    and once the component is removed nothing changes them at all. *)
Theorem variables_follow_their_events (props : Props) (e : Event) (s : State) :
  stateVariables (fst (step props e s))
  = if mounted s then
      (match e with ProfileFetched data => data | _ => receiver s end,
       match e with
       | ClickMute => if has (localStream s) then negb (isMuted s) else isMuted s
       | _ => isMuted s
       end,
       match e with
       | ClickVideo =>
           if has (localStream s) then negb (isVideoEnabled s) else isVideoEnabled s
       | _ => isVideoEnabled s
       end,
       match e with
       | TrackEvent _ => if has (remoteVideoRef s) then true else isCallActive s
       | _ =>
           if teardownTrigger e && negb (sendRaises s) then false else isCallActive s
       end,
       match e with
       | PresenceJoin np => if namesReceiver props np then false else isConnecting s
       | TrackEvent _ => if has (remoteVideoRef s) then false else isConnecting s
       | _ => isConnecting s
       end,
       match e with
       | MediaRejected name => Some (errorMessage name)
       | ClickTryAgain => None
       | _ => permissionError s
       end)
    else stateVariables s.
Proof. apply step_stateVariables. Qed.

Lemma step_isConnecting props e s :
  isConnecting s = false -> isConnecting (fst (step props e s)) = false.
Proof.
  intros Hs.
  pose proof (f_equal (fun v => snd (fst v)) (step_stateVariables props e s)) as H.
  cbn [stateVariables fst snd] in H. rewrite H.
  destruct (mounted s); cbn [fst snd]; [|done]. rewrite Hs.
  destruct e; try done; by match goal with |- (if ?b then _ else _) = _ => destruct b end.
Qed.

(** X8.  Once [isConnecting] is false it is false for the rest of the
    session, whatever happens: the overlay with the spinner never comes
    back, not even when the media is requested again after a failure, and
    the label never returns to [Connecting...]. *)
Theorem overlay_never_returns (props : Props) (s : State)
    (log : list Effect) (es : list Event) :
  isConnecting s = false ->
  isConnecting (fst (run_from props s log es)) = false
  /\ overlayShown (fst (run_from props s log es)) = false
  /\ statusLabel (fst (run_from props s log es)) <> "Connecting...".
Proof.
  intros Hs.
  assert (isConnecting (fst (run_from props s log es)) = false) as H.
  { apply (run_from_invariant props (fun u => isConnecting u = false)); [|done].
    intros e u. apply step_isConnecting. }
  split; [done|]. unfold overlayShown, statusLabel. rewrite H. split.
  - by destruct (permissionError _).
  - by destruct (isCallActive _).
Qed.

Lemma overlay_never_returns_witness :
  isConnecting (fst (step Scenario.alice Scenario.bobJoins Scenario.acquiring)) = false
  /\ overlayShown
       (fst (run_from Scenario.alice
               (fst (step Scenario.alice Scenario.bobJoins Scenario.acquiring)) []
               [MediaRejected "NotFoundError"; ClickTryAgain]))
     = false.
Proof.
  split; [reflexivity|].
  exact (proj1 (proj2 (overlay_never_returns Scenario.alice
                         (fst (step Scenario.alice Scenario.bobJoins Scenario.acquiring))
                         [] [MediaRejected "NotFoundError"; ClickTryAgain] eq_refl))).
Defined.

Lemma step_isCallActive props e s :
  isCallActive (fst (step props e s)) = true ->
  isCallActive s = true \/ exists evs, e = TrackEvent evs.
Proof.
  pose proof (f_equal (fun v => snd (fst (fst v))) (step_stateVariables props e s)) as H.
  cbn [stateVariables fst snd] in H. rewrite H.
  destruct (mounted s); cbn [fst snd]; [|auto].
  destruct e; try (right; by eexists);
    try (match goal with |- (if ?b then _ else _) = _ -> _ => destruct b end); auto;
    discriminate.
Qed.

Lemma run_from_isCallActive props es : forall s log,
  isCallActive (fst (run_from props s log es)) = true ->
  isCallActive s = true \/ exists evs, TrackEvent evs ∈ es.
Proof.
  induction es as [|e es IH]; intros s log H; cbn [run_from fst] in H; [auto|].
  destruct (IH _ _ H) as [H'|[evs Hin]].
  - destruct (step_isCallActive props e s H') as [?|[evs ->]]; [auto|].
    right. exists evs. apply list_elem_of_here.
  - right. exists evs. by apply list_elem_of_further.
Qed.

(** X9.  A session shows [Connected] only if a remote track has arrived:
    no other event makes the call active. *)
Theorem connected_only_by_track (props : Props) (es : list Event) :
  statusLabel (fst (run props es)) = "Connected" ->
  exists evs, TrackEvent evs ∈ es.
Proof.
  unfold statusLabel. intros H.
  destruct (isCallActive (fst (run props es))) eqn:Ha.
  - unfold run in Ha. rewrite mount_run in Ha.
    by destruct (run_from_isCallActive props es _ _ Ha) as [?|?].
  - by destruct (isConnecting _).
Qed.

Lemma connected_only_by_track_witness :
  statusLabel (fst (run Scenario.alice [MediaResolved Scenario.cam; TrackEvent [7]]))
  = "Connected"
  /\ exists evs, TrackEvent evs ∈ [MediaResolved Scenario.cam; TrackEvent [7]].
Proof.
  split; [reflexivity|].
  exact (connected_only_by_track Scenario.alice
           [MediaResolved Scenario.cam; TrackEvent [7]] eq_refl).
Defined.

(** X10.  Once the component has been removed, no event changes a state
    variable any more and the component stays removed: the setters of a late
    profile, a late failure, a late track or a late presence-join have no
    effect. *)
Theorem unmounted_state_frozen (props : Props) (s : State)
    (log : list Effect) (es : list Event) :
  mounted s = false ->
  stateVariables (fst (run_from props s log es)) = stateVariables s
  /\ mounted (fst (run_from props s log es)) = false.
Proof.
  intros Hs.
  apply (run_from_invariant props
           (fun u => stateVariables u = stateVariables s /\ mounted u = false));
    [|done].
  intros e u [Hv Hm]. rewrite step_stateVariables, step_mounted, Hm. by split.
Qed.

Lemma unmounted_state_frozen_witness :
  mounted Scenario.abandoned = false
  /\ stateVariables
       (fst (run_from Scenario.alice Scenario.abandoned []
               [MediaRejected "NotAllowedError"; TrackEvent [7]; Scenario.bobJoins]))
     = stateVariables Scenario.abandoned.
Proof.
  split; [reflexivity|].
  exact (proj1 (unmounted_state_frozen Scenario.alice Scenario.abandoned []
                  [MediaRejected "NotAllowedError"; TrackEvent [7]; Scenario.bobJoins]
                  eq_refl)).
Defined.

(** ** The remote track *)

(** What a render leaves in the two refs of a mounted component. *)
Lemma rendered_refs props s :
  render props s = s -> mounted s = true ->
  match permissionError s with
  | Some _ => localVideoRef s = None /\ remoteVideoRef s = None
  | None =>
      is_Some (remoteVideoRef s)
      /\ (if wantsVideo props then is_Some (localVideoRef s) else localVideoRef s = None)
  end.
Proof.
  unfold render. destruct_state s. cbn. intros H ->.
  destruct pe, (wantsVideo props), lv, rv; cbn in H; try discriminate; eauto.
Qed.

(** X11.  On the call screen the first remote track makes the call active:
    the streams of the event's first entry go to the remote video element,
    [isCallActive] is set and [isConnecting] cleared, so the label reads
    [Connected] and the overlay goes, and the session is in the Active
    state.  On the permission screen, where the remote element does not
    exist, a remote track changes nothing.  Neither makes any call. *)
Theorem remote_track_activates (props : Props) (s : State) (evs : list nat) :
  render props s = s -> mounted s = true ->
  snd (step props (TrackEvent evs) s) = []
  /\ match permissionError s with
     | Some _ => fst (step props (TrackEvent evs) s) = s
     | None =>
         fst (step props (TrackEvent evs) s)
         = with_isConnecting false
             (with_isCallActive true
                (with_videoRefs (localVideoRef s) (Some (mkVideo (head evs))) s))
         /\ statusLabel (fst (step props (TrackEvent evs) s)) = "Connected"
         /\ overlayShown (fst (step props (TrackEvent evs) s)) = false
         /\ phase (fst (step props (TrackEvent evs) s))
            = (if has (peerConnectionRef s) then Active else Acquiring)
     end.
Proof.
  intros Hr Hm. pose proof (rendered_refs props s Hr Hm) as Hrefs.
  unfold render in Hr. destruct_state s. cbn in Hm, Hrefs, Hr. subst mo.
  destruct pe as [m|].
  - destruct Hrefs as [-> ->]. by split.
  - destruct Hrefs as [[v ->] Hl]. unfold step, render. cbn.
    destruct (wantsVideo props); cbn.
    + destruct Hl as [l ->]. cbn. split; [done|]. split_and!; try done. by destruct pc.
    + rewrite Hl. split; [done|]. split_and!; try done. by destruct pc.
Qed.

Lemma remote_track_activates_witness :
  render Scenario.alice Scenario.connecting = Scenario.connecting
  /\ mounted Scenario.connecting = true
  /\ statusLabel (fst (step Scenario.alice (TrackEvent [7]) Scenario.connecting))
     = "Connected"
  /\ phase (fst (step Scenario.alice (TrackEvent [7]) Scenario.connecting)) = Active.
Proof.
  split; [vm_compute; reflexivity|]. split; [reflexivity|].
  pose proof (remote_track_activates Scenario.alice Scenario.connecting [7]
                eq_refl eq_refl) as [_ (_ & Hlabel & _ & Hphase)].
  split; [exact Hlabel | exact Hphase].
Defined.

(** ** The kind of call *)

(** X12.  The component asks for the microphone always, and for the camera
    exactly when the [type] parameter of the page is missing, empty or
    [video]: any other value, the [voice] of the home page's Call button
    among them, gives a call without camera and without local video
    element.  The profile looked up and the channel joined are those of the
    [id] of the route. *)
Theorem callType_default (id : string) (user : option string) (param : option string) :
  snd (mount (routed id user param))
  = [ProfilesSelect id;
     GetUserMedia true
       (bool_decide (param = None \/ param = Some "" \/ param = Some "video"));
     ChannelSubscribe ("call:" +:+ id)]
  /\ has (localVideoRef (fst (mount (routed id user param))))
     = bool_decide (param = None \/ param = Some "" \/ param = Some "video").
Proof.
  rewrite mount_run. cbn [fst snd]. unfold render, wantsVideo, routed, channelName, callTypeOf.
  cbn [callType receiverId].
  destruct param as [t|].
  - destruct (String.eqb_spec t "") as [->|Hempty].
    { rewrite bool_decide_eq_true_2 by auto. by split. }
    destruct (String.eqb_spec t "video") as [->|Hvideo].
    { rewrite bool_decide_eq_true_2 by auto. by split. }
    rewrite bool_decide_eq_false_2 by (intros [?|[?|?]]; congruence).
    destruct t; [done|]. apply String.eqb_neq in Hvideo. rewrite Hvideo. by split.
  - rewrite bool_decide_eq_true_2 by auto. by split.
Qed.

(** ** A call without video *)

Lemma toggles_without_stream s :
  localStream s = None ->
  toggleMute s = (Done tt, s, []) /\ toggleVideo s = (Done tt, s, []).
Proof. destruct_state s. by destruct_video lv. Qed.

(** X13.  In a call without video the controls reach no track, at any
    point of the session: the mute button and the video button change
    nothing at all, not even their flag, and no teardown stops a track, so
    the microphone stays on after a hang-up.  The stream acquired is
    attached to no element, the local one being rendered for video calls
    only. *)
Theorem voice_call_controls_do_nothing (props : Props) (es : list Event) (e : Event) :
  wantsVideo props = false ->
  teardownTrigger e = true ->
  localStream (fst (run props es)) = None
  /\ step props ClickMute (fst (run props es)) = (fst (run props es), [])
  /\ step props ClickVideo (fst (run props es)) = (fst (run props es), [])
  /\ streams (fst (step props e (fst (run props es)))) = streams (fst (run props es)).
Proof.
  intros Hw He.
  pose proof (render_audio_only props (fst (run props es)) Hw) as Hnone.
  rewrite run_rendered in Hnone.
  destruct (toggles_without_stream _ Hnone) as [Hm Hv].
  split_and!; [done| | |by apply audio_call_tracks_never_stopped].
  - unfold step, handler. rewrite Hm. cbn. by rewrite run_rendered.
  - unfold step, handler. rewrite Hv. cbn. by rewrite run_rendered.
Qed.

Lemma voice_call_controls_do_nothing_witness :
  wantsVideo Voice.alice = false
  /\ teardownTrigger ClickHangUp = true
  /\ step Voice.alice ClickMute Voice.connected = (Voice.connected, [])
  /\ streams (fst (step Voice.alice ClickHangUp Voice.connected)) = [Voice.mic].
Proof.
  split; [reflexivity|]. split; [reflexivity|].
  pose proof (voice_call_controls_do_nothing Voice.alice
                [MediaResolved Voice.mic; ChannelOpened] ClickHangUp eq_refl eq_refl)
    as (_ & Hmute & _ & Hstop).
  split; [exact Hmute | exact Hstop].
Defined.

(** ** A call with video *)

(** X14.  In a video call whose call screen is shown, the stream that the
    acquisition delivers is put on the local video element, and the mute
    button then negates the [enabled] field of exactly the audio tracks of
    that stream and negates the flag; the streams acquired before are left
    as they are. *)
Theorem mute_after_acquisition (props : Props) (s : State) (stream : MediaStream) :
  render props s = s -> mounted s = true -> permissionError s = None ->
  wantsVideo props = true ->
  localStream (fst (step props (MediaResolved stream) s)) = Some (length (streams s))
  /\ streams (fst (step props (MediaResolved stream) s)) = streams s ++ [stream]
  /\ streams (fst (step props ClickMute (fst (step props (MediaResolved stream) s))))
     = streams s ++ [forEach_where is_audio flip_enabled stream]
  /\ isMuted (fst (step props ClickMute (fst (step props (MediaResolved stream) s))))
     = negb (isMuted s).
Proof.
  intros Hr Hm Hp Hw. pose proof (rendered_refs props s Hr Hm) as Hrefs.
  rewrite Hp, Hw in Hrefs. destruct Hrefs as [[r Hrv] [l Hlv]].
  assert (localStream (fst (step props (MediaResolved stream) s))
          = Some (length (streams s))) as Hlocal.
  { unfold step, handler. rewrite initializeCall_resolved_run. cbn [state_of fst snd].
    unfold render. rewrite Hw. destruct_state s. cbn in *. by subst. }
  assert (isMuted (fst (step props (MediaResolved stream) s)) = isMuted s
          /\ mounted (fst (step props (MediaResolved stream) s)) = true) as [Hmu Hmo].
  { rewrite step_mounted, Hm. split; [|done].
    pose proof (f_equal (fun v => snd (fst (fst (fst (fst v)))))
                  (step_stateVariables props (MediaResolved stream) s)) as H.
    cbn [stateVariables fst snd] in H. rewrite H, Hm. done. }
  split; [done|]. split; [apply step_streams|]. split.
  - rewrite step_streams. cbn [streamsAfter]. rewrite Hlocal. cbn [from_option].
    rewrite step_streams. cbn [streamsAfter].
    replace (length (streams s)) with (length (streams s) + 0) by lia.
    by rewrite alter_app_r.
  - pose proof (f_equal (fun v => snd (fst (fst (fst (fst v)))))
                  (step_stateVariables props ClickMute
                     (fst (step props (MediaResolved stream) s)))) as H.
    cbn [stateVariables fst snd] in H. rewrite H, Hmo, Hlocal, Hmu. done.
Qed.

Lemma mute_after_acquisition_witness :
  render Scenario.alice Scenario.acquiring = Scenario.acquiring
  /\ mounted Scenario.acquiring = true
  /\ permissionError Scenario.acquiring = None
  /\ wantsVideo Scenario.alice = true
  /\ streams (fst (step Scenario.alice ClickMute
                     (fst (step Scenario.alice (MediaResolved Scenario.cam)
                             Scenario.acquiring))))
     = [] ++ [forEach_where is_audio flip_enabled Scenario.cam].
Proof.
  split; [vm_compute; reflexivity|]. split; [reflexivity|].
  split; [reflexivity|]. split; [reflexivity|].
  exact (proj1 (proj2 (proj2 (mute_after_acquisition Scenario.alice Scenario.acquiring
                                Scenario.cam eq_refl eq_refl eq_refl eq_refl)))).
Defined.

(** ** Connections *)

Lemma step_peerConnectionRef props e s :
  peerConnectionRef (fst (step props e s))
  = match e with
    | MediaResolved _ => Some (connections s)
    | _ => peerConnectionRef s
    end.
Proof. unfold step; cbn [fst]. rewrite render_peerConnectionRef. each_step s. Qed.

(** X15.  When the media arrives a second time, a new connection takes the
    place of the old one in the ref, and from then on the old connection is
    never closed, whatever happens: neither a teardown nor the cleanup at
    removal reaches it. *)
Theorem replaced_connection_never_closed (props : Props) (s : State) (old : nat)
    (stream : MediaStream) (es : list Event) :
  Coherent s ->
  peerConnectionRef s = Some old ->
  Forall (fun c => c <> PcClose old)
    (snd (run_from props (fst (step props (MediaResolved stream) s)) [] es)).
Proof.
  intros Hs Hold.
  apply (run_from_log_Forall props _
           (fun u => Coherent u /\ exists pc, peerConnectionRef u = Some pc /\ old < pc)).
  - intros e u [Hu (pc & Hpc & Hlt)]. split; [by apply step_coherent|].
    rewrite step_peerConnectionRef. destruct e; eauto.
    destruct Hu as [_ Hc _ _]. rewrite Hpc in Hc. cbn in Hc.
    exists (connections u). split; [done | lia].
  - intros e u [_ (pc & Hpc & Hlt)]. eapply Forall_impl; [apply step_made|].
    intros c Hc. destruct Hc; try done. intros [= ->]. rewrite Hpc in H.
    injection H as ->. lia.
  - split; [by apply step_coherent|]. rewrite step_peerConnectionRef.
    destruct Hs as [_ Hc _ _]. rewrite Hold in Hc. cbn in Hc.
    exists (connections s). split; [done | lia].
  - constructor.
Qed.

Lemma replaced_connection_never_closed_witness :
  Coherent Scenario.connecting
  /\ peerConnectionRef Scenario.connecting = Some 0
  /\ Forall (fun c => c <> PcClose 0)
       (snd (run_from Scenario.alice
               (fst (step Scenario.alice (MediaResolved Scenario.cam) Scenario.connecting))
               [] [ChannelOpened; ClickHangUp; Unmount])).
Proof.
  assert (Coherent Scenario.connecting) as Hc
    by (constructor; vm_compute; [reflexivity | reflexivity | discriminate | lia]).
  split; [exact Hc|]. split; [reflexivity|].
  exact (replaced_connection_never_closed Scenario.alice Scenario.connecting 0
           Scenario.cam [ChannelOpened; ClickHangUp; Unmount] Hc eq_refl).
Defined.

(** ** Teardown before the channel opens *)

Lemma render_channelOpen props s : channelOpen (render props s) = channelOpen s.
Proof. unfold render. destruct_state s. by destruct mo, pe. Qed.

(** Only the [open] event of the data channel makes it open. *)
Lemma step_channelOpen props e s :
  channelOpen (fst (step props e s))
  = channelOpen (fst (step props e s))
    && (channelOpen s || match e with ChannelOpened => true | _ => false end).
Proof. unfold step; cbn [fst]. rewrite render_channelOpen. each_step s. Qed.

Lemma step_channelRef props e s :
  channelRef (fst (step props e s))
  = match e with
    | MediaResolved _ => Some (connections s)
    | _ => channelRef s
    end.
Proof. unfold step; cbn [fst]. rewrite render_channelRef. each_step s. Qed.

Lemma run_from_channelOpen props es : forall s log,
  ChannelOpened ∉ es -> channelOpen s = false ->
  channelOpen (fst (run_from props s log es)) = false.
Proof.
  induction es as [|e es IH]; intros s log Hes Hs; cbn [run_from fst]; [done|].
  apply not_elem_of_cons in Hes as [He Hes]. apply IH; [done|].
  rewrite step_channelOpen, Hs. destruct e; try done; by rewrite andb_false_r.
Qed.

Lemma run_from_channelRef props stream es : forall s log,
  MediaResolved stream ∈ es \/ is_Some (channelRef s) ->
  is_Some (channelRef (fst (run_from props s log es))).
Proof.
  induction es as [|e es IH]; intros s log Hs; cbn [run_from fst].
  - destruct Hs as [Hs|Hs]; [by apply elem_of_nil in Hs | done].
  - apply IH. rewrite step_channelRef.
    destruct Hs as [[<-|Hs]%elem_of_cons|Hs]; [right; by eexists | by left |].
    right. by destruct e.
Qed.

(** C3, the code fails the claim.  The component never sets a remote
    description, so its connection is never established and the data
    channel it created never opens.  In every such session, once the media
    has been acquired, each of the three termination triggers runs
    [endCall], whose first statement, the send of the notice, raises
    [InvalidStateError]; the rest of the routine is skipped.  No track is
    stopped, the connection is not closed, [isCallActive] is not cleared and
    nothing navigates: the state is as it was, with a connection in the ref,
    and the exception is the only trace. *)
Theorem teardown_raises_before_release (props : Props) (es : list Event)
    (stream : MediaStream) (e : Event) :
  MediaResolved stream ∈ es ->
  ChannelOpened ∉ es ->
  teardownTrigger e = true ->
  step props e (fst (run props es)) = (fst (run props es), [Uncaught "InvalidStateError"])
  /\ is_Some (peerConnectionRef (fst (run props es))).
Proof.
  intros Hm Ho He.
  assert (is_Some (channelRef (fst (run props es)))) as [dc Hdc]
    by (apply (run_from_channelRef props stream); by left).
  assert (channelOpen (fst (run props es)) = false) as Hopen.
  { apply run_from_channelOpen; [done|]. rewrite mount_run. cbn [fst]. by rewrite render_channelOpen. }
  split.
  - rewrite (step_trigger props e _ He). unfold sendRaises. rewrite Hdc, Hopen.
    cbn [negb]. by rewrite run_rendered.
  - pose proof (run_invariant props Coherent es) as [Href _ _ _].
    + rewrite mount_run. unfold render. cbn. destruct (wantsVideo props); by constructor.
    + intros ? ?. apply step_coherent.
    + by rewrite <- Href, Hdc.
Qed.

Lemma teardown_raises_before_release_witness :
  (MediaResolved Scenario.cam ∈ [MediaResolved Scenario.cam])
  /\ (ChannelOpened ∉ [MediaResolved Scenario.cam])
  /\ teardownTrigger ClickHangUp = true
  /\ streams Scenario.connecting = [Scenario.cam]
  /\ peerConnectionRef Scenario.connecting = Some 0
  /\ step Scenario.alice ClickHangUp Scenario.connecting
     = (Scenario.connecting, [Uncaught "InvalidStateError"]).
Proof.
  assert (ChannelOpened ∉ [MediaResolved Scenario.cam]) as Ho
    by (apply not_elem_of_cons; split; [discriminate | apply not_elem_of_nil]).
  split; [apply list_elem_of_here|]. split; [exact Ho|].
  split; [reflexivity|]. split; [reflexivity|]. split; [reflexivity|].
  exact (proj1 (teardown_raises_before_release Scenario.alice [MediaResolved Scenario.cam]
                  Scenario.cam ClickHangUp (list_elem_of_here _ _) Ho eq_refl)).
Defined.

(** ** Messages on the data channel *)

(** X16.  A message on the data channel that is not an object whose [type]
    is the text [end-call] changes nothing and makes no call, whatever else
    it holds; of a repeated [type] member the last one decides.  A text that
    is no JSON raises [SyntaxError] and the value [null] raises [TypeError],
    both uncaught; any other value is ignored in silence. *)
Theorem other_messages_ignored (props : Props) (data : JsonText) (s : State) :
  teardownTrigger (ChannelMessage data) = false ->
  step props (ChannelMessage data) s
  = (render props s,
     match JSON_parse data with
     | None => [Uncaught "SyntaxError"]
     | Some JNull => [Uncaught "TypeError"]
     | Some _ => []
     end).
Proof.
  unfold step, handler, onmessage, teardownTrigger.
  destruct data as [[| | | | |fields]|]; cbn; try done.
  by intros ->.
Qed.

Lemma other_messages_ignored_witness :
  teardownTrigger
    (ChannelMessage
       (JSON_stringify (JObj [("type", JStr "end-call"); ("type", JStr "End-Call")])))
  = false
  /\ step Scenario.alice
       (ChannelMessage
          (JSON_stringify (JObj [("type", JStr "end-call"); ("type", JStr "End-Call")])))
       Scenario.connected
     = (Scenario.connected, [])
  /\ step Scenario.alice (ChannelMessage (Malformed "end-call")) Scenario.connected
     = (Scenario.connected, [Uncaught "SyntaxError"]).
Proof.
  split; [reflexivity|]. split.
  - exact (other_messages_ignored Scenario.alice
             (JSON_stringify (JObj [("type", JStr "end-call"); ("type", JStr "End-Call")]))
             Scenario.connected eq_refl).
  - exact (other_messages_ignored Scenario.alice (Malformed "end-call")
             Scenario.connected eq_refl).
Defined.
